(** * Verification of the scheduling and workspace-discovery core of
      rolldown-workspace / rollup-workspace.

    Sources embedded here:
    - [Dispatcher.run] / [visit] (priority assignment, cycle detection,
      stable descending sort), Dispatcher.ts (both variants);
    - [Dispatcher.build] and [Builder.build] of the rolldown variant, and
      the [Activity] token with [ensureActive];
    - [Dispatcher.enqueue], [buildNext] and the watch callbacks of the
      rollup variant;
    - [Workspace.discover] (dependency edges);
    - [Package.discover] (manifest walk, validation, directory cache). *)

From stdpp Require Import base list gmap strings.
From Stdlib Require Import Sorting.Sorted.

Local Open Scope nat_scope.

(* ================================================================== *)
(** ** Helpers: WeakSet<Package> as a list of package indices *)

Definition mem (x : nat) (l : list nat) : bool := existsb (Nat.eqb x) l.

(** [WeakSet.add]: no change when already present *)
Definition set_add (x : nat) (l : list nat) : list nat :=
  if mem x l then l else x :: l.

(** [WeakSet.delete] *)
Definition set_delete (x : nat) (l : list nat) : list nat :=
  List.filter (fun y => negb (Nat.eqb x y)) l.

(* ================================================================== *)
(** ** Dispatcher.run: depth-first priority assignment *)

(** The package graph as [Dispatcher.run] sees it: packages are the
    indices [0 .. g_size - 1]; [downstreamDependencies p] is the array
    of packages [p] depends on, in push order; [pkg_name p] is
    [p.declaration.name]. *)
Record Graph := {
  g_size : nat;
  downstreamDependencies : nat -> list nat;
  pkg_name : nat -> string
}.

(** The local variables of [Dispatcher.run] captured by [visit]. *)
Record VisitState := {
  visited : list nat;
  visiting : list nat;
  entries : list (nat * nat);      (* (pkg, priority), push order *)
  cycleStart : option nat;
  cycleInfo : string
}.

Definition init_state : VisitState :=
  {| visited := []; visiting := []; entries := [];
     cycleStart := None; cycleInfo := "" |}.

(** [visit] returns [true]/[false], throws, or (modelling artefact)
    runs out of its recursion budget. *)
Inductive VisitOutcome :=
| VRet (ok : bool) (st : VisitState)
| VThrow (msg : string)
| VNoFuel.

Definition cycle_message (info : string) : string :=
  "dependency cycle [-> " +:+ info +:+ " ->]".

Definition is_cycle_start (st : VisitState) (pkg : nat) : bool :=
  match cycleStart st with Some c => Nat.eqb c pkg | None => false end.

Definition st_enter (pkg : nat) (st : VisitState) : VisitState :=
  {| visited := visited st; visiting := set_add pkg (visiting st);
     entries := entries st; cycleStart := cycleStart st;
     cycleInfo := cycleInfo st |}.

Definition st_finish (pkg priority : nat) (st : VisitState) : VisitState :=
  {| visited := set_add pkg (visited st);
     visiting := set_delete pkg (visiting st);
     entries := entries st ++ [(pkg, priority)];
     cycleStart := cycleStart st; cycleInfo := cycleInfo st |}.

Definition st_found_cycle (pkg : nat) (name : string) (st : VisitState)
  : VisitState :=
  {| visited := visited st; visiting := visiting st;
     entries := entries st; cycleStart := Some pkg; cycleInfo := name |}.

Definition st_append_info (name : string) (st : VisitState) : VisitState :=
  {| visited := visited st; visiting := visiting st;
     entries := entries st; cycleStart := cycleStart st;
     cycleInfo := cycleInfo st +:+ " -> " +:+ name |}.

Section Visit.
Variable g : Graph.

(** The [for (const dep of pkg.downstreamDependencies)] loop of [visit],
    followed by [visiting.delete; visited.add; entries.push]. *)
Fixpoint visit_deps (visit : nat -> nat -> VisitState -> VisitOutcome)
    (pkg priority : nat) (deps : list nat) (st : VisitState) : VisitOutcome :=
  match deps with
  | [] => VRet true (st_finish pkg priority st)
  | dep :: rest =>
      match visit dep (S priority) st with
      | VRet true st' => visit_deps visit pkg priority rest st'
      | VRet false st' =>
          if is_cycle_start st' pkg
          then VThrow (cycle_message (cycleInfo st'))
          else VRet false (st_append_info (pkg_name g pkg) st')
      | VThrow m => VThrow m
      | VNoFuel => VNoFuel
      end
  end.

(** [visit(pkg, priority)]; [fuel] bounds the recursion depth. *)
Fixpoint visit (fuel pkg priority : nat) (st : VisitState) : VisitOutcome :=
  match fuel with
  | O => VNoFuel
  | S fuel' =>
      if mem pkg (visited st) then VRet true st
      else if mem pkg (visiting st)
      then VRet false (st_found_cycle pkg (pkg_name g pkg) st)
      else visit_deps (visit fuel') pkg priority
             (downstreamDependencies g pkg) (st_enter pkg st)
  end.

(** [packages.forEach(visit)]: [forEach] passes the array index as the
    second argument, which [visit] receives as [priority]. The return
    value of [visit] is ignored. *)
Fixpoint traverse_from (fuel index : nat) (pkgs : list nat) (st : VisitState)
  : VisitOutcome :=
  match pkgs with
  | [] => VRet true st
  | p :: ps =>
      match visit fuel p index st with
      | VRet _ st' => traverse_from fuel (S index) ps st'
      | VThrow m => VThrow m
      | VNoFuel => VNoFuel
      end
  end.

(** Each top-level call gets a depth budget of [g_size + 1], enough
    since every nested call adds a new package to [visiting]. *)
Definition traverse (pkgs : list nat) : VisitOutcome :=
  traverse_from (S (g_size g)) 0 pkgs init_state.

End Visit.

(** [Array.prototype.sort] with comparator [(a, b) => b.priority - a.priority]:
    a stable sort by descending priority (insertion sort). *)
Fixpoint insert_desc {A} (prio : A -> nat) (x : A) (l : list A) : list A :=
  match l with
  | [] => [x]
  | y :: l' => if prio y <? prio x then x :: y :: l' else y :: insert_desc prio x l'
  end.

Definition sort_desc {A} (prio : A -> nat) (l : list A) : list A :=
  fold_left (fun acc x => insert_desc prio x acc) l [].

(** The order in which the one-shot loop visits packages (the rollup
    variant builds exactly the sorted [entries]; the rolldown variant
    expands each entry into its targets, keeping this order). *)
Definition schedule (g : Graph) (pkgs : list nat) : option (list nat) :=
  match traverse g pkgs with
  | VRet _ st => Some (map fst (sort_desc snd (entries st)))
  | _ => None
  end.

(** Graph vocabulary used in the statements. *)
Definition edge (g : Graph) (a b : nat) : Prop := In b (downstreamDependencies g a).

(** Every package index handed to [visit] and every edge stays inside
    the package table. *)
Definition graph_wf (g : Graph) : Prop :=
  forall p d, p < g_size g -> In d (downstreamDependencies g p) -> d < g_size g.

(** Consecutive elements are dependency edges. *)
Fixpoint walk (g : Graph) (l : list nat) : Prop :=
  match l with
  | a :: ((b :: _) as t) => edge g a b /\ walk g t
  | _ => True
  end.

(** The text accumulated in [cycleInfo]: the re-entered package's name,
    then [" -> " + name] for each package the failure unwinds through. *)
Definition info_of (g : Graph) (x : nat) (W : list nat) : string :=
  fold_left (fun acc y => acc +:+ " -> " +:+ pkg_name g y) W (pkg_name g x).

(** A list of packages in which every package's dependencies occur
    further down the list (i.e. were added earlier). *)
Inductive Topo (g : Graph) : list nat -> Prop :=
| Topo_nil : Topo g []
| Topo_cons p l :
    (forall d, In d (downstreamDependencies g p) -> In d l) ->
    Topo g l -> Topo g (p :: l).

(* ================================================================== *)
(** ** One-shot mode (rolldown variant): Activity, Builder.build,
       Dispatcher.build, Dispatcher.run *)

(** A build target of one package: whether [rolldown(...)] rejects its
    input, and for each output whether [bundle.write(output)] fails. *)
Record Target := {
  t_pkg : nat;
  t_input_fails : bool;
  t_outputs : list bool
}.

(** Calls made on the [Reporter]. *)
Inductive Event :=
| AddPackage (p : nat)
| SetStatusSkip (p : nat)
| PackageBuildStarted (p : nat)
| PackageBuildSucceeded (p : nat)
| PackageBuildFailed (p : nat)
| LogError (p : nat).

Inductive Error :=
| AbortError                   (* thrown by [ensureActive] *)
| BuildError (p : nat)         (* thrown by [rolldown] or [bundle.write] *)
| CycleError (msg : string).   (* [new Error("dependency cycle ...")] *)

(** The [main] activity and the reporter log. [act_tick] counts the
    suspension points ([await]s); [signal n] says that SIGINT/SIGTERM is
    delivered while the [n]-th suspension is pending, which runs
    [onStop] and so [stop()]. *)
Record ActState := {
  isActive : bool;
  act_tick : nat;
  act_log : list Event
}.

Definition act_init : ActState := {| isActive := true; act_tick := 0; act_log := [] |}.

Definition report (e : Event) (st : ActState) : ActState :=
  {| isActive := isActive st; act_tick := act_tick st; act_log := act_log st ++ [e] |}.

(** [ensureActive]: [if (!this.isActive) throw new AbortError(...)] *)
Definition ensureActive (st : ActState) : option Error :=
  if isActive st then None else Some AbortError.

Section OneShot.
Variable signal : nat -> bool.

(** One [await]: a pending signal may run [stop()], which sets
    [isActive = false] for good. *)
Definition suspend (st : ActState) : ActState :=
  {| isActive := if signal (act_tick st) then false else isActive st;
     act_tick := S (act_tick st); act_log := act_log st |}.

(** [for (const output of target.outputs) { main.ensureActive();
    await bundle.write(output); }] *)
Fixpoint write_outputs (p : nat) (outs : list bool) (st : ActState)
  : ActState * option Error :=
  match outs with
  | [] => (st, None)
  | fails :: rest =>
      match ensureActive st with
      | Some e => (st, Some e)
      | None =>
          let st' := suspend st in
          if fails then (st', Some (BuildError p)) else write_outputs p rest st'
      end
  end.

(** [Builder.build(main)]: reports start, bundles, writes the outputs,
    closes the bundle, reports success; on any exception it reports the
    failure, logs the error, closes the bundle if one is open, and
    rethrows ([throw ex]). *)
Definition builder_build (t : Target) (st : ActState) : ActState * option Error :=
  let p := t_pkg t in
  let st1 := suspend (report (PackageBuildStarted p) st) in   (* await rolldown(...) *)
  if t_input_fails t then
    (report (LogError p) (report (PackageBuildFailed p) st1), Some (BuildError p))
  else
    match write_outputs p (t_outputs t) st1 with
    | (st2, None) => (report (PackageBuildSucceeded p) (suspend st2), None)  (* await bundle.close() *)
    | (st2, Some e) =>
        (suspend (report (LogError p) (report (PackageBuildFailed p) st2)), Some e)
    end.

(** [Dispatcher.build]: [for (const target of this.targets)
    { main.ensureActive(); await target.builder.build(main); }] *)
Fixpoint dispatcher_build (ts : list Target) (st : ActState) : ActState * option Error :=
  match ts with
  | [] => (st, None)
  | t :: rest =>
      match ensureActive st with
      | Some e => (st, Some e)
      | None =>
          match builder_build t st with
          | (st', None) => dispatcher_build rest st'
          | (st', Some e) => (st', Some e)
          end
      end
  end.

(** [Dispatcher.run(packages, call)] in one-shot mode, with
    [targets p] the result of [Builder.getTargets(p)]: traversal, reporter
    registration, target expansion, stable sort by descending priority,
    then [dispatcher.build()]. [None] only when the traversal budget is
    exhausted, which does not happen on well-formed graphs. *)
Definition run (g : Graph) (targets : nat -> list Target) (pkgs : list nat)
  : option (ActState * option Error) :=
  match traverse g pkgs with
  | VThrow m => Some (act_init, Some (CycleError m))
  | VNoFuel => None
  | VRet _ vst =>
      let es := entries vst in
      let reports := map (fun e => AddPackage (fst e)) es in
      let skips := flat_map (fun e => match targets (fst e) with
                                      | [] => [SetStatusSkip (fst e)]
                                      | _ => []
                                      end) es in
      let targetEntries := flat_map (fun e => map (fun t => (snd e, t)) (targets (fst e))) es in
      let sorted := sort_desc fst targetEntries in
      Some (dispatcher_build (map snd sorted)
              {| isActive := true; act_tick := 0; act_log := reports ++ skips |})
  end.

End OneShot.

(* ================================================================== *)
(** ** Watch mode (rollup variant): enqueue, buildNext, debounce *)

(** [BuilderEntry] objects are the indices [0, 1, ...]; object identity
    ([other === entry]) is index equality, and [priority e] is the
    entry's readonly [priority] field. *)
Section Watch.
Variable priority : nat -> nat.

(** The [while] loop of [enqueue]: [None] when the entry is already
    queued ([return]), otherwise the [index] at which it is spliced in. *)
Fixpoint find_slot (queue : list nat) (entry index : nat) : option nat :=
  match queue with
  | [] => Some index
  | other :: rest =>
      if Nat.eqb other entry then None
      else if priority other <? priority entry then Some index
      else find_slot rest entry (S index)
  end.

(** [this.queue.splice(index, 0, entry)] for [index <= queue.length] *)
Definition splice_in (index entry : nat) (queue : list nat) : list nat :=
  firstn index queue ++ entry :: skipn index queue.

(** The dispatcher's mutable state in watch mode, the [isDirty] flags,
    the pending [setTimeout(this.enqueue, DEBOUNCE_MS, entry)] callbacks
    (all with the same delay, so they fire in creation order), the entry
    whose [builder.build] is being awaited by [buildNext], the abort
    signal, and a log of the entries spliced into the queue. *)
Record WatchState := {
  queue : list nat;
  w_isActive : bool;
  dirty : list nat;
  timers : list nat;
  inflight : option nat;
  aborted : bool;
  inserted : list nat
}.

Definition watch_init : WatchState :=
  {| queue := []; w_isActive := false; dirty := []; timers := [];
     inflight := None; aborted := false; inserted := [] |}.

(** [buildNext]: [const next = this.queue[0]; if (!next || signal.aborted)
    { this.isActive = false; return; } this.isActive = true;
    await next.builder.build(...)] *)
Definition buildNext (st : WatchState) : WatchState :=
  match queue st with
  | next :: _ =>
      if aborted st then
        {| queue := queue st; w_isActive := false; dirty := dirty st; timers := timers st;
           inflight := None; aborted := aborted st; inserted := inserted st |}
      else
        {| queue := queue st; w_isActive := true; dirty := dirty st; timers := timers st;
           inflight := Some next; aborted := aborted st; inserted := inserted st |}
  | [] =>
      {| queue := queue st; w_isActive := false; dirty := dirty st; timers := timers st;
         inflight := None; aborted := aborted st; inserted := inserted st |}
  end.

(** [enqueue(entry)]: find the slot, splice, start the chain if idle. *)
Definition enqueue (st : WatchState) (entry : nat) : WatchState :=
  match find_slot (queue st) entry 0 with
  | None => st
  | Some index =>
      let st1 := {| queue := splice_in index entry (queue st); w_isActive := w_isActive st;
                    dirty := dirty st; timers := timers st; inflight := inflight st;
                    aborted := aborted st; inserted := inserted st ++ [entry] |} in
      if w_isActive st1 then st1 else buildNext st1
  end.

Inductive WatchEvent :=
| Change (entry : nat)   (* a watched file of [entry] changes *)
| TimerFires             (* the oldest pending debounce timer fires *)
| BuildFinished          (* the awaited [next.builder.build] settles *)
| AbortSignal.           (* SIGINT/SIGTERM: [controller.abort] *)

(** One event. [Change] runs the [startWatching] callback
    ([if (entry.isDirty) return; entry.isDirty = true; setTimeout(...)]),
    unless the abort listener has already called [stopWatching].
    [BuildFinished] runs the rest of [buildNext]: [this.queue.shift();
    next.isDirty = false; await this.buildNext()]. *)
Definition watch_step (st : WatchState) (ev : WatchEvent) : WatchState :=
  match ev with
  | Change e =>
      if aborted st || mem e (dirty st) then st
      else {| queue := queue st; w_isActive := w_isActive st; dirty := e :: dirty st;
              timers := timers st ++ [e]; inflight := inflight st;
              aborted := aborted st; inserted := inserted st |}
  | TimerFires =>
      match timers st with
      | [] => st
      | e :: rest =>
          enqueue {| queue := queue st; w_isActive := w_isActive st; dirty := dirty st;
                     timers := rest; inflight := inflight st;
                     aborted := aborted st; inserted := inserted st |} e
      end
  | BuildFinished =>
      match inflight st with
      | None => st
      | Some next =>
          buildNext {| queue := tl (queue st); w_isActive := w_isActive st;
                       dirty := set_delete next (dirty st); timers := timers st;
                       inflight := inflight st; aborted := aborted st;
                       inserted := inserted st |}
      end
  | AbortSignal =>
      {| queue := queue st; w_isActive := w_isActive st; dirty := dirty st;
         timers := timers st; inflight := inflight st; aborted := true;
         inserted := inserted st |}
  end.

Definition watch_run (st : WatchState) (evs : list WatchEvent) : WatchState :=
  fold_left watch_step evs st.

(** Queue order: descending priority. *)
Definition prio_desc (a b : nat) : Prop := priority b <= priority a.

End Watch.

(* ================================================================== *)
(** ** Workspace.discover: the dependency graph *)

Inductive DependencyKind := Runtime | Development | Peer | Optional.

(** [DependencyMap]: referenced name -> reference string (keys unique,
    as in a parsed JSON object). *)
Definition DependencyMap := list (string * string).

Record PackageDeclaration := {
  decl_name : string;
  dependencies : DependencyMap;
  devDependencies : DependencyMap;
  peerDependencies : DependencyMap;
  optionalDependencies : DependencyMap
}.

(** [upstream.declaration[depKind]] *)
Definition deps_of (d : PackageDeclaration) (k : DependencyKind) : DependencyMap :=
  match k with
  | Runtime => dependencies d
  | Development => devDependencies d
  | Peer => peerDependencies d
  | Optional => optionalDependencies d
  end.

(** [map[name]] *)
Fixpoint dep_lookup (m : DependencyMap) (name : string) : option string :=
  match m with
  | [] => None
  | (k, v) :: rest => if String.eqb k name then Some v else dep_lookup rest name
  end.

(** [DEFAULT_REF_FILTER]: [ref => ref.startsWith("workspace:")] *)
Definition DEFAULT_REF_FILTER (ref : string) : bool := String.prefix "workspace:" ref.

Definition DEFAULT_FOLLOW_DEPS : list DependencyKind := [Runtime; Development; Peer].

Definition empty_decl : PackageDeclaration :=
  {| decl_name := ""; dependencies := []; devDependencies := [];
     peerDependencies := []; optionalDependencies := [] |}.

Section WorkspaceGraph.
Variable refFilter : string -> bool.
Variable followDeps : list DependencyKind.
(** The members in the insertion order of the [packages] set. *)
Variable packages : list PackageDeclaration.

Definition member (i : nat) : PackageDeclaration := nth i packages empty_decl.

(** [const ref = upstream.declaration[depKind]?.[downstream.declaration.name];
    if (ref && refFilter(ref))] *)
Definition ref_ok (up down : nat) (k : DependencyKind) : bool :=
  match dep_lookup (deps_of (member up) k) (decl_name (member down)) with
  | Some ref => negb (String.eqb ref "") && refFilter ref
  | None => false
  end.

(** The pushes made for one ordered pair by the innermost
    [followDeps.forEach]. *)
Definition pair_pushes (up down : nat) : list (nat * nat) :=
  flat_map (fun k => if ref_ok up down k then [(up, down)] else []) followDeps.

(** [packages.forEach(upstream => packages.forEach(downstream =>
    followDeps.forEach(...)))]: the sequence of edges pushed. *)
Definition graph_pushes : list (nat * nat) :=
  flat_map (fun up => flat_map (fun down => pair_pushes up down)
                                 (seq 0 (length packages)))
           (seq 0 (length packages)).

(** [pkg.downstreamDependencies] and [pkg.upstreamDependents] after the
    loop: the pushes onto each array, in order. *)
Definition ws_downstream (i : nat) : list nat :=
  map snd (List.filter (fun e => Nat.eqb (fst e) i) graph_pushes).

Definition ws_upstream (j : nat) : list nat :=
  map fst (List.filter (fun e => Nat.eqb (snd e) j) graph_pushes).

(** The graph [Dispatcher.run] receives for these members. *)
Definition ws_graph : Graph :=
  {| g_size := length packages; downstreamDependencies := ws_downstream;
     pkg_name := fun i => decl_name (member i) |}.

End WorkspaceGraph.

(* ================================================================== *)
(** ** Package.discover: manifest walk, validation, directory cache *)

(** Values produced by [JSON.parse]. *)
Inductive json :=
| JNull
| JBool (b : bool)
| JNumber (n : Z)
| JString (s : string)
| JArray (items : list json)
| JObject (fields : list (string * json)).

(** Property read [value[key]] on a parsed value: for an object the
    last binding of [key] (JSON.parse keeps the last duplicate);
    arrays and primitives have no [name] / [workspaces] property. *)
Definition get_prop (v : json) (key : string) : option json :=
  match v with
  | JObject fields =>
      fold_left (fun acc kv => if String.eqb (fst kv) key then Some (snd kv) else acc)
                fields None
  | _ => None
  end.

(** [isObject]: [value !== null && typeof value === "object"] *)
Definition isObject (v : json) : bool :=
  match v with JObject _ | JArray _ => true | _ => false end.

(** [isString] *)
Definition isString (v : json) : bool :=
  match v with JString _ => true | _ => false end.

(** [isArrayOf(value, guard)]:
    [Array.isArray(value) && (value.length === 0 || guard(value[0]))] *)
Definition isArrayOf (v : json) (guard : json -> bool) : bool :=
  match v with
  | JArray [] => true
  | JArray (x :: _) => guard x
  | _ => false
  end.

Inductive DiscoverError :=
| ManifestParseError            (* "could not parse 'package.json' file at: ..." *)
| ManifestShapeError (msg : string)
| AmbiguousBuildConfigError     (* "multiple build config files found in: ..." *)
| FilesystemError.              (* non-ENOENT error of [fs.readFile] *)

(** The checks after [JSON.parse]: [None] when they all pass. *)
Definition validate_declaration (declaration : json) : option DiscoverError :=
  if negb (isObject declaration) then Some (ManifestShapeError "expected a JSON object")
  else match get_prop declaration "name" with
  | Some n =>
      if negb (isString n) then Some (ManifestShapeError "name must be a string")
      else match get_prop declaration "workspaces" with
           | Some w =>
               if negb (isArrayOf w isString)
               then Some (ManifestShapeError "workspaces must be an array of strings")
               else None
           | None => None
           end
  | None => Some (ManifestShapeError "name must be a string")
  end.

(** Absolute directories as path segments, innermost first:
    [["c"; "b"; "a"]] is ["/a/b/c"], [[]] is ["/"]. *)
Fixpoint dir_str (d : list string) : string :=
  match d with
  | [] => "/"
  | x :: rest =>
      match rest with
      | [] => "/" +:+ x
      | _ => dir_str rest +:+ "/" +:+ x
      end
  end.

(** [path.join(cwd, "..")] *)
Definition parent_dir (d : list string) : list string := tl d.

Record Package := {
  directory : string;
  declaration : json;
  buildConfigPath : option string
}.

(** Result of [fs.readFile(path.join(cwd, "./package.json"))]. *)
Inductive ReadResult := RContent (text : string) | RENOENT | RFail.

(** The file system, as far as [Package.discover] uses it, and
    [JSON.parse]. [globBuildConfig cwd] lists the matches of the build
    config glob in [cwd]. *)
Record FileSystem := {
  readPackageJson : list string -> ReadResult;
  globBuildConfig : list string -> list string;
  json_parse : string -> option json
}.

Record DiscoverPackageOptions := {
  opt_cwd : list string;            (* path.resolve(cwd), or process.cwd() *)
  opt_jail : option (list string)
}.

(** [options?.jail ? path.resolve(options?.jail) : ""] *)
Definition jail_string (o : DiscoverPackageOptions) : string :=
  match opt_jail o with Some j => dir_str j | None => "" end.

Inductive WalkResult :=
| WCached (c : option Package) (visitedDirs : list string)
| WDone (cwd : list string) (declJson : option string) (visitedDirs : list string)
| WThrow (e : DiscoverError) (visitedDirs : list string).

Definition walk_dirs (w : WalkResult) : list string :=
  match w with WCached _ v | WDone _ _ v | WThrow _ v => v end.

Inductive DiscoverResult := Found (p : option Package) | Failed (e : DiscoverError).

Section Discover.
Variable fs : FileSystem.
Variable cache : gmap string (option Package).

(** The [while (cwd.startsWith(jail) && ++depth < 128)] loop; [fuel]
    is the number of iterations [depth] still allows. *)
Fixpoint discover_walk (jail : string) (fuel : nat) (cwd : list string) (visitedDirs : list string)
  : WalkResult :=
  match fuel with
  | O => WDone cwd None visitedDirs
  | S fuel' =>
      if negb (String.prefix jail (dir_str cwd)) then WDone cwd None visitedDirs
      else match cache !! dir_str cwd with
      | Some cachedPackage => WCached cachedPackage visitedDirs
      | None =>
          let visited' := visitedDirs ++ [dir_str cwd] in
          match readPackageJson fs cwd with
          | RContent text => WDone cwd (Some text) visited'
          | RFail => WThrow FilesystemError visited'
          | RENOENT =>
              let parentDir := parent_dir cwd in
              if String.eqb (dir_str parentDir) (dir_str cwd) then WDone cwd None visited'
              else discover_walk jail fuel' parentDir visited'
          end
      end
  end.

(** The [finally] block: [visitedDirs.forEach(dir => cache.set(dir, cacheEntry))] *)
Definition cache_visited (visitedDirs : list string) (cacheEntry : option Package)
  : gmap string (option Package) :=
  fold_left (fun c dir => <[dir := cacheEntry]> c) visitedDirs cache.

(** [for await (const hint of iterator) { if (buildConfigPath) throw ...;
    buildConfigPath = path.join(cwd, hint); }] *)
Definition find_build_config (cwd : list string) : DiscoverResult + option string :=
  match globBuildConfig fs cwd with
  | [] => inr None
  | [hint] => inr (Some (dir_str cwd +:+ "/" +:+ hint))
  | _ :: _ :: _ => inl (Failed AmbiguousBuildConfigError)
  end.

(** [Package.discover(options)]: the result and the updated
    [Package.cache]. [cacheEntry] stays [null] on every path but the
    successful construction of a [Package]. *)
Definition discover (o : DiscoverPackageOptions)
  : DiscoverResult * gmap string (option Package) :=
  let w := discover_walk (jail_string o) 127 (opt_cwd o) [] in
  let vis := walk_dirs w in
  match w with
  | WCached c _ => (Found c, cache_visited vis None)
  | WThrow e _ => (Failed e, cache_visited vis None)
  | WDone _ None _ => (Found None, cache_visited vis None)
  | WDone cwd (Some declJson) _ =>
      if String.eqb declJson "" then (Found None, cache_visited vis None)
      else match json_parse fs declJson with
      | None => (Failed ManifestParseError, cache_visited vis None)
      | Some decl =>
          match validate_declaration decl with
          | Some e => (Failed e, cache_visited vis None)
          | None =>
              match find_build_config cwd with
              | inl r => (r, cache_visited vis None)
              | inr cfg =>
                  let pkg := {| directory := dir_str cwd; declaration := decl;
                                buildConfigPath := cfg |} in
                  (Found (Some pkg), cache_visited vis (Some pkg))
              end
          end
      end
  end.

End Discover.

(** [cwd], [path.join(cwd, "..")], ...: the first [n] directories the
    walk of [Package.discover] would visit from [cwd]. *)
Fixpoint ancestors (n : nat) (cwd : list string) : list (list string) :=
  match n with
  | O => []
  | S n' => cwd :: ancestors n' (parent_dir cwd)
  end.

(* ================================================================== *)
(** ** Deferred: a promise with synchronous inspection *)

Section Deferreds.
Context {T R : Type}.   (* [T]: the value type; [R]: the [Error] objects (all truthy) *)

Inductive PromiseState :=
| PPending
| PFulfilled (v : T)
| PRejected (r : R).

(** [CompletableDeferredInternal<T>]: [_pending], [_value], [_reason]
    and the state of the [value] promise. *)
Record Deferred := {
  _pending : bool;
  _value : option T;
  _reason : option R;
  value : PromiseState
}.

(** [deferred()] *)
Definition deferred : Deferred :=
  {| _pending := true; _value := None; _reason := None; value := PPending |}.

(** [resolveFn] / [rejectFn]: a settled promise ignores later calls. *)
Definition resolveFn (v : T) (ps : PromiseState) : PromiseState :=
  match ps with PPending => PFulfilled v | _ => ps end.

Definition rejectFn (r : R) (ps : PromiseState) : PromiseState :=
  match ps with PPending => PRejected r | _ => ps end.

(** [complete: value => { self._pending = false; self._value = value;
    resolveFn(value); }] *)
Definition complete (v : T) (d : Deferred) : Deferred :=
  {| _pending := false; _value := Some v; _reason := _reason d; value := resolveFn v (value d) |}.

(** [fail: reason => { self._pending = false; self._reason = reason;
    rejectFn(reason); }] *)
Definition fail (r : R) (d : Deferred) : Deferred :=
  {| _pending := false; _value := _value d; _reason := Some r; value := rejectFn r (value d) |}.

Inductive DeferredThrow :=
| DeferredError (msg : string)   (* [new Error(...)] *)
| DeferredReason (r : R).        (* [throw this._reason] *)

(** [ensurePending]: [if (!this._pending) throw new Error(...)] *)
Definition ensurePending (d : Deferred) : option DeferredThrow :=
  if _pending d then None else Some (DeferredError "the Deferred is not pending").

(** [getValue]: [if (this._pending) throw ...; if (this._reason) throw
    this._reason; return this._value!] *)
Definition getValue (d : Deferred) : DeferredThrow + option T :=
  if _pending d then inl (DeferredError "the Deferred is still pending")
  else match _reason d with
       | Some r => inl (DeferredReason r)
       | None => inr (_value d)
       end.

(** A sequence of [complete] / [fail] calls on one deferred. *)
Inductive DeferredCall := CallComplete (v : T) | CallFail (r : R).

Definition deferred_call (d : Deferred) (c : DeferredCall) : Deferred :=
  match c with CallComplete v => complete v d | CallFail r => fail r d end.

Definition deferred_calls (d : Deferred) (cs : list DeferredCall) : Deferred :=
  fold_left deferred_call cs d.

(** [deferred.resolved(value)] and [deferred.rejected(reason)] *)
Definition deferred_resolved (v : T) : Deferred := complete v deferred.
Definition deferred_rejected (r : R) : Deferred := fail r deferred.

(** The reason of the last [fail] call and the value of the last
    [complete] call of a sequence. *)
Definition last_fail (cs : list DeferredCall) : option R :=
  fold_left (fun acc c => match c with CallFail r => Some r | _ => acc end) cs None.

Definition last_complete (cs : list DeferredCall) : option T :=
  fold_left (fun acc c => match c with CallComplete v => Some v | _ => acc end) cs None.

End Deferreds.

Arguments PromiseState : clear implicits.
Arguments Deferred : clear implicits.
Arguments DeferredThrow : clear implicits.
Arguments DeferredCall : clear implicits.

(* ================================================================== *)
(** ** Builder (rollup variant): file watchers *)

(** The [ChangeCallback] functions: [noop] and the callbacks passed to
    [startWatching], told apart by a number (function identity). *)
Inductive ChangeCallback := noop | OnChange (n : nat).

(** A [Watcher] made by [this.fs.watch(path)], with the callback
    registered by [watcher.on("change", callback)]. *)
Record Watcher := {
  watcher_id : nat;
  watcher_path : string;
  watcher_callback : ChangeCallback
}.

(** The watchers [fs.watch] has made, numbered in creation order, and
    the numbers of those [close()] was called on, in call order. *)
Record WatchFs := {
  created : list Watcher;
  closed : list nat
}.

(** [this.fs.watch(path)] followed by [watcher.on("change", cb)] *)
Definition fs_watch (path : string) (cb : ChangeCallback) (w : WatchFs) : nat * WatchFs :=
  let id := length (created w) in
  (id, {| created := created w ++ [{| watcher_id := id; watcher_path := path;
                                      watcher_callback := cb |}];
          closed := closed w |}).

(** [watcher.close()] *)
Definition watcher_close (id : nat) (w : WatchFs) : WatchFs :=
  {| created := created w; closed := closed w ++ [id] |}.

(** [Map<string, Watcher>] as an association list in insertion order. *)
Definition WatcherMap := list (string * nat).

(** [map.set(k, v)]: an existing key keeps its position. *)
Definition map_set (k : string) (v : nat) (m : WatcherMap) : WatcherMap :=
  if existsb (fun kv => String.eqb (fst kv) k) m
  then map (fun kv => if String.eqb (fst kv) k then (k, v) else kv) m
  else m ++ [(k, v)].

(** [map.get(k)] *)
Definition map_get (k : string) (m : WatcherMap) : option nat :=
  option_map snd (find (fun kv => String.eqb (fst kv) k) m).

(** [map.delete(k)]: whether the key was present, and the new map. *)
Definition map_delete (k : string) (m : WatcherMap) : bool * WatcherMap :=
  (existsb (fun kv => String.eqb (fst kv) k) m,
   List.filter (fun kv => negb (String.eqb (fst kv) k)) m).

(** [a.difference(b)] on [Set<string>] (insertion-ordered lists without
    duplicates): the elements of [a] not in [b], in [a]'s order. *)
Definition set_difference (a b : list string) : list string :=
  List.filter (fun x => negb (existsb (String.eqb x) b)) a.

(** The watch-related fields of a rollup [Builder]. *)
Record RollupBuilder := {
  watchers : WatcherMap;
  watchFiles : list string;
  onFileChange : ChangeCallback;
  isWatching : bool
}.

(** [EMPTY_SET], [noop], not watching. *)
Definition builder_init : RollupBuilder :=
  {| watchers := []; watchFiles := []; onFileChange := noop; isWatching := false |}.

(** [paths.forEach(path => { const watcher = this.fs.watch(path);
    watcher.on("change", cb); watchers.set(path, watcher); })] *)
Fixpoint open_watchers (cb : ChangeCallback) (paths : list string) (m : WatcherMap) (w : WatchFs)
  : WatcherMap * WatchFs :=
  match paths with
  | [] => (m, w)
  | path :: rest =>
      let (id, w') := fs_watch path cb w in
      open_watchers cb rest (map_set path id m) w'
  end.

(** [paths.forEach(path => { const watcher = watchers.get(path);
    if (watchers.delete(path)) { watcher!.close(); } })] *)
Fixpoint close_watchers (paths : list string) (m : WatcherMap) (w : WatchFs)
  : WatcherMap * WatchFs :=
  match paths with
  | [] => (m, w)
  | path :: rest =>
      let watcher := map_get path m in
      let (deleted, m') := map_delete path m in
      let w' := if deleted then match watcher with Some id => watcher_close id w | None => w end
                else w in
      close_watchers rest m' w'
  end.

(** [startWatching(callback)] *)
Definition startWatching (cb : ChangeCallback) (b : RollupBuilder) (w : WatchFs)
  : RollupBuilder * WatchFs :=
  if isWatching b then (b, w)
  else
    let (m, w') := open_watchers cb (watchFiles b) (watchers b) w in
    ({| watchers := m; watchFiles := watchFiles b; onFileChange := cb; isWatching := true |}, w').

(** [stopWatching()]: [this.watchers.values().forEach(watcher =>
    watcher.close())], then clear and reset. *)
Definition stopWatching (b : RollupBuilder) (w : WatchFs) : RollupBuilder * WatchFs :=
  if negb (isWatching b) then (b, w)
  else (builder_init, fold_left (fun w' id => watcher_close id w') (map snd (watchers b)) w).

(** [setWatchFiles(nextWatchFiles)] *)
Definition setWatchFiles (next : list string) (b : RollupBuilder) (w : WatchFs)
  : RollupBuilder * WatchFs :=
  if negb (isWatching b) then
    ({| watchers := watchers b; watchFiles := next; onFileChange := onFileChange b;
        isWatching := isWatching b |}, w)
  else
    let prev := watchFiles b in
    let (m1, w1) := close_watchers (set_difference prev next) (watchers b) w in
    let (m2, w2) := open_watchers (onFileChange b) (set_difference next prev) m1 w1 in
    ({| watchers := m2; watchFiles := next; onFileChange := onFileChange b;
        isWatching := isWatching b |}, w2).

(** The calls the rollup [Dispatcher] and [Builder.build] make on a
    builder's watch state. [setWatchFiles] is always passed a [Set]. *)
Inductive WatchCall :=
| CallStartWatching (cb : ChangeCallback)
| CallStopWatching
| CallSetWatchFiles (next : list string).

Definition watch_call (bw : RollupBuilder * WatchFs) (c : WatchCall) : RollupBuilder * WatchFs :=
  match c with
  | CallStartWatching cb => startWatching cb (fst bw) (snd bw)
  | CallStopWatching => stopWatching (fst bw) (snd bw)
  | CallSetWatchFiles next => setWatchFiles next (fst bw) (snd bw)
  end.

Definition watch_calls (bw : RollupBuilder * WatchFs) (cs : list WatchCall) : RollupBuilder * WatchFs :=
  fold_left watch_call cs bw.

Definition set_arguments (cs : list WatchCall) : Prop :=
  Forall (fun c => match c with CallSetWatchFiles next => List.NoDup next | _ => True end) cs.

Definition fs_init : WatchFs := {| created := []; closed := [] |}.

(** The watcher [open_watchers] makes for the pair (path, number). *)
Definition new_watcher (cb : ChangeCallback) (pi : string * nat) : Watcher :=
  {| watcher_id := snd pi; watcher_path := fst pi; watcher_callback := cb |}.

(** What the builder keeps true of its watchers: [watchFiles] and the
    map's keys are duplicate-free; every watcher number is its creation
    index; the open watchers are exactly those in the map; while
    watching, the map's keys are the [watchFiles] and each map entry is
    a watcher on that path with [onFileChange] as its callback; while
    not watching, the map is empty; only created watchers are closed. *)
Definition watch_inv (b : RollupBuilder) (w : WatchFs) : Prop :=
  List.NoDup (watchFiles b) /\
  List.NoDup (map fst (watchers b)) /\
  (forall id o, nth_error (created w) id = Some o -> watcher_id o = id) /\
  (forall id, In id (closed w) -> id < length (created w)) /\
  (forall id o, nth_error (created w) id = Some o -> ~ In id (closed w) ->
     In (watcher_path o, id) (watchers b)) /\
  (forall p id, In (p, id) (watchers b) ->
     ~ In id (closed w) /\
     exists o, nth_error (created w) id = Some o /\ watcher_path o = p /\
               watcher_callback o = onFileChange b) /\
  (if isWatching b then forall p, In p (map fst (watchers b)) <-> In p (watchFiles b)
   else watchers b = []).

(* ================================================================== *)
(** ** Watch-mode build of one package (rollup [Builder.build]) and
       [Dispatcher.build] *)

(** A rollup build target: whether [rollup(target.input)] rejects, for
    each output whether [bundle.write(output)] fails, and the
    [bundle.watchFiles] of the bundle. *)
Record RTarget := {
  rt_input_fails : bool;
  rt_outputs : list bool;
  rt_watchFiles : list string
}.

(** [Set.prototype.add]: appends the value unless it is present. *)
Definition str_set_add (x : string) (s : list string) : list string :=
  if existsb (String.eqb x) s then s else s ++ [x].

(** [bundle.watchFiles.forEach(it => watchFiles.add(it))] *)
Definition add_all (xs : list string) (s : list string) : list string :=
  fold_left (fun acc x => str_set_add x acc) xs s.

(** What the [catch] of [build] sees when a target throws: the error
    and whether [bundle] is still set (so [bundle?.close()] closes it). *)
Definition Thrown : Type := Error * bool.

Section RollupBuild.
Variable signal : nat -> bool.
Variable p : nat.

(** The [for (const target of targets)] loop of [build]: [signal
    ?.throwIfAborted()] (here [ensureActive]), [await rollup(...)], the
    outputs loop, adding the watch files, [await bundle.close()].
    [opened] and [closed] count the bundles made and closed. *)
Fixpoint build_targets (ts : list RTarget) (st : ActState) (files : list string)
    (opened closed : nat) : ActState * list string * nat * nat * option Thrown :=
  match ts with
  | [] => (st, files, opened, closed, None)
  | t :: rest =>
      match ensureActive st with
      | Some e => (st, files, opened, closed, Some (e, false))
      | None =>
          let st1 := suspend signal st in                   (* await rollup(...) *)
          if rt_input_fails t then (st1, files, opened, closed, Some (BuildError p, false))
          else
            match write_outputs signal p (rt_outputs t) st1 with
            | (st2, Some e) => (st2, files, S opened, closed, Some (e, true))
            | (st2, None) =>
                build_targets rest (suspend signal st2)     (* await bundle.close() *)
                  (add_all (rt_watchFiles t) files) (S opened) (S closed)
            end
      end
  end.

(** [Builder.build(call, signal)]: [tgs] is what [await
    this.getTargets(call)] gives ([None] when it throws). The builder's
    watch state is updated by [setWatchFiles] on success only; the
    exception is caught and never rethrown. Returns the reporter state,
    the watch state and the counts of bundles opened and closed. *)
Definition rollup_build (tgs : option (list RTarget)) (b : RollupBuilder) (w : WatchFs)
    (st : ActState) : ActState * (RollupBuilder * WatchFs) * (nat * nat) :=
  let st1 := suspend signal (report (PackageBuildStarted p) st) in   (* await getTargets *)
  let fail (st2 : ActState) (o c : nat) (open : bool) :=
    (suspend signal (report (LogError p) (report (PackageBuildFailed p) st2)),  (* await bundle?.close() *)
     (b, w), (o, if open then S c else c)) in
  match tgs with
  | None => fail st1 0 0 false
  | Some ts =>
      match build_targets ts st1 [] 0 0 with
      | (st2, files, o, c, None) =>
          (report (PackageBuildSucceeded p) st2, setWatchFiles files b w, (o, c))
      | (st2, _, o, c, Some (_, open)) => fail st2 o c open
      end
  end.

End RollupBuild.

(** A [BuilderEntry] of the rollup [Dispatcher]: the package, what its
    [getTargets] gives, and its builder's watch state. *)
Record REntry := {
  re_pkg : nat;
  re_targets : option (list RTarget);
  re_builder : RollupBuilder
}.

(** [Dispatcher.build()]: [signal.throwIfAborted()] once, then [await
    entry.builder.build(this.call, signal)] for each entry in order. All
    builders share one [FileSystem]. *)
Fixpoint rollup_build_entries (signal : nat -> bool) (es : list REntry) (w : WatchFs)
    (st : ActState) : ActState * list RollupBuilder * WatchFs :=
  match es with
  | [] => (st, [], w)
  | e :: rest =>
      match rollup_build signal (re_pkg e) (re_targets e) (re_builder e) w st with
      | (st', (b', w'), _) =>
          let '(st'', bs, w'') := rollup_build_entries signal rest w' st' in
          (st'', b' :: bs, w'')
      end
  end.

Definition rollup_dispatcher_build (signal : nat -> bool) (es : list REntry) (w : WatchFs)
    (st : ActState) : ActState * list RollupBuilder * WatchFs * option Error :=
  match ensureActive st with
  | Some e => (st, map re_builder es, w, Some e)
  | None => let '(st', bs, w') := rollup_build_entries signal es w st in (st', bs, w', None)
  end.

(* ================================================================== *)
(** ** [safeQuoteString] (cli/stringify.ts) *)

(** A string is the list of its characters (code units); [str[index]] is
    [nth_error], [str.slice(a, b)] is [slice str a b] and
    [str.slice(a)] is [skipn a str]. *)
Definition quote_ch : Ascii.ascii := Ascii.ascii_of_nat 34.
Definition backslash_ch : Ascii.ascii := Ascii.ascii_of_nat 92.

Definition slice (str : list Ascii.ascii) (a b : nat) : list Ascii.ascii :=
  firstn (b - a) (skipn a str).

(** [for (; index < length; index += 1) { if (str[index] === QUOTE) {
    text += str.slice(anchor, index) + BACKSLASH + QUOTE; anchor = index + 1; } }],
    QUOTE being a double quote ([quote_ch]) and BACKSLASH a backslash
    ([backslash_ch]); [n] is the number of iterations left; returns
    [text] and [anchor]. *)
Fixpoint quote_loop (str : list Ascii.ascii) (n index anchor : nat) (text : list Ascii.ascii)
    : list Ascii.ascii * nat :=
  match n with
  | 0 => (text, anchor)
  | S n' =>
      if match nth_error str index with Some c => Ascii.eqb c quote_ch | None => false end
      then quote_loop str n' (S index) (S index) (text ++ slice str anchor index ++ [backslash_ch; quote_ch])
      else quote_loop str n' (S index) anchor text
  end.

(** [return QUOTE + text + str.slice(anchor) + QUOTE] *)
Definition safeQuoteString (str : list Ascii.ascii) : list Ascii.ascii :=
  let (text, anchor) := quote_loop str (length str) 0 0 [] in
  [quote_ch] ++ text ++ skipn anchor str ++ [quote_ch].

(** Each double quote preceded by a backslash, every other character
    (backslashes included) as it is. *)
Fixpoint escape_quotes (s : list Ascii.ascii) : list Ascii.ascii :=
  match s with
  | [] => []
  | c :: s' => (if Ascii.eqb c quote_ch then [backslash_ch; quote_ch] else [c]) ++ escape_quotes s'
  end.

(* ================================================================== *)
(** ** [safeStringifyStruct] (cli/stringify.ts) *)

(** JS values by [typeof]; numbers and bigints carry their
    [toString()] text, objects are references into a heap. *)
Inductive JsValue :=
| VNumber (text : list Ascii.ascii)
| VString (s : list Ascii.ascii)
| VBool (b : bool)
| VBigInt (text : list Ascii.ascii)
| VSymbol
| VFunction
| VUndefined
| VNull
| VRef (id : nat).

(** Heap objects: arrays, plain objects ([Object.prototype] as
    prototype) with their own enumerable keys in [for...in] order, and
    other objects with [proto?.constructor?.name]. *)
Inductive JsObject :=
| OArray (items : list JsValue)
| OPlain (props : list (list Ascii.ascii * JsValue))
| OOther (ctor_name : option (list Ascii.ascii)).

Definition Heap := list JsObject.

Definition lit (s : string) : list Ascii.ascii := String.list_ascii_of_string s.
Definition nl_ch : Ascii.ascii := Ascii.ascii_of_nat 10.

(** A template literal [`${r}`]: [undefined] prints as [undefined]. *)
Definition show_result (r : option (list Ascii.ascii)) : list Ascii.ascii :=
  match r with Some t => t | None => lit "undefined" end.

Definition StringifyFn : Type :=
  JsValue -> list Ascii.ascii -> list nat -> option (list Ascii.ascii) * list nat.

(** The loop of [safeStringifyArray]:
    [text += `\n${nextIndent}${safeStringifyStruct(item, nextIndent, visited)},`] *)
Fixpoint items_loop (rec : StringifyFn) (nextIndent : list Ascii.ascii) (xs : list JsValue)
    (text : list Ascii.ascii) (vis : list nat) : list Ascii.ascii * list nat :=
  match xs with
  | [] => (text, vis)
  | x :: xs' =>
      let (r, vis') := rec x nextIndent vis in
      items_loop rec nextIndent xs' (text ++ [nl_ch] ++ nextIndent ++ show_result r ++ lit ",") vis'
  end.

(** The loop of [safeStringifyObject]: [text += `\n${nextIndent}${
    safeStringifyStruct(key, "", visited)}: ${safeStringifyStruct(
    record[key], nextIndent, visited)},`] *)
Fixpoint props_loop (rec : StringifyFn) (nextIndent : list Ascii.ascii)
    (ps : list (list Ascii.ascii * JsValue)) (text : list Ascii.ascii) (vis : list nat)
    : list Ascii.ascii * list nat :=
  match ps with
  | [] => (text, vis)
  | (k, x) :: ps' =>
      let (rk, vis1) := rec (VString k) [] vis in
      let (rx, vis2) := rec x nextIndent vis1 in
      props_loop rec nextIndent ps'
        (text ++ [nl_ch] ++ nextIndent ++ show_result rk ++ lit ": " ++ show_result rx ++ lit ",") vis2
  end.

(** [safeStringifyStruct(value, indent, visited)] with the [visited]
    WeakSet threaded through; [None] is the [undefined] it returns for
    [typeof value === "undefined"]. [fuel] bounds the nesting of
    references; [visited] grows by one object per level, so [S (length
    h)] levels suffice. *)
Fixpoint stringify (fuel : nat) (h : Heap) (v : JsValue) (indent : list Ascii.ascii)
    (visited : list nat) {struct fuel} : option (list Ascii.ascii) * list nat :=
  match fuel with
  | 0 => (None, visited)
  | S f =>
      match v with
      | VNumber t => (Some t, visited)
      | VString str => (Some (safeQuoteString str), visited)
      | VBool b => (Some (lit (if b then "true" else "false")), visited)
      | VBigInt t => (Some (t ++ lit "n"), visited)
      | VSymbol => (Some (lit "<symbol>"), visited)
      | VFunction => (Some (lit "<function>"), visited)
      | VUndefined => (None, visited)
      | VNull => (Some (lit "null"), visited)
      | VRef id =>
          if mem id visited then (Some (lit "<cycle>"), visited)
          else
            let visited := set_add id visited in
            let nextIndent := indent ++ lit "  " in
            match nth_error h id with
            | Some (OArray items) =>
                let (text, vis) := items_loop (stringify f h) nextIndent items [] visited in
                (Some (match text with
                       | [] => lit "[]"
                       | _ => lit "[" ++ text ++ [nl_ch] ++ indent ++ lit "]"
                       end), vis)
            | Some (OPlain props) =>
                let (text, vis) := props_loop (stringify f h) nextIndent props [] visited in
                (Some (match text with
                       | [] => lit "{}"
                       | _ => lit "{" ++ text ++ [nl_ch] ++ indent ++ lit "}"
                       end), vis)
            | Some (OOther name) =>
                (Some (match name with Some n => n | None => lit "<unknown>" end), visited)
            | None => (None, visited)
            end
      end
  end.

Definition safeStringifyStruct (h : Heap) (v : JsValue) : option (list Ascii.ascii) :=
  fst (stringify (S (length h)) h v [] []).

(* ================================================================== *)
(** ** Watch mode (rolldown variant): [Dispatcher.enqueue] and
       [triggerNext] *)

(** A [PendingTarget]: the target entry (its index; [other.target ===
    target] is index equality) and the [BuildHandle] passed by the
    watcher's [restart] hook (its number). *)
Record PendingTarget := {
  pt_target : nat;
  pt_handle : nat
}.

(** The dispatcher's queue and [isBuilding] flag, [main.isActive], and
    the handles whose [build()] has been called, in call order. *)
Record RdWatchState := {
  rd_queue : list PendingTarget;
  isBuilding : bool;
  rd_isActive : bool;
  rd_calls : list nat
}.

Definition rd_init : RdWatchState :=
  {| rd_queue := []; isBuilding := false; rd_isActive := true; rd_calls := [] |}.

Section RolldownWatch.
Variable priority : nat -> nat.

(** [triggerNext]: [if (this.isBuilding || !this.main.isActive) return;
    const next = this.queue[0]; if (!next) return; this.isBuilding =
    true; next.handle.build()...] *)
Definition triggerNext (st : RdWatchState) : RdWatchState :=
  if isBuilding st || negb (rd_isActive st) then st
  else match rd_queue st with
       | [] => st
       | next :: _ =>
           {| rd_queue := rd_queue st; isBuilding := true; rd_isActive := rd_isActive st;
              rd_calls := rd_calls st ++ [pt_handle next] |}
       end.

(** [this.queue.splice(index, 0, { target, handle })] *)
Definition rd_splice_in (index : nat) (x : PendingTarget) (queue : list PendingTarget)
    : list PendingTarget :=
  firstn index queue ++ x :: skipn index queue.

(** [enqueue(target, handle)]: the same slot search as the rollup
    variant, on [other.target]; splice, then [triggerNext()]. *)
Definition rd_enqueue (st : RdWatchState) (target handle : nat) : RdWatchState :=
  match find_slot priority (map pt_target (rd_queue st)) target 0 with
  | None => st
  | Some index =>
      triggerNext {| rd_queue := rd_splice_in index {| pt_target := target; pt_handle := handle |} (rd_queue st);
                     isBuilding := isBuilding st; rd_isActive := rd_isActive st;
                     rd_calls := rd_calls st |}
  end.

Inductive RdEvent :=
| RdRestart (target handle : nat)   (* the [restart] hook calls [onBuildPending(handle)] *)
| RdBuildSettled                    (* the promise of [next.handle.build()] settles *)
| RdStop.                           (* SIGINT/SIGTERM: [stop()] of the [main] activity *)

(** [RdBuildSettled] runs the [finally] callback: [this.queue.shift();
    this.isBuilding = false; process.nextTick(this.triggerNext)]. *)
Definition rd_step (st : RdWatchState) (ev : RdEvent) : RdWatchState :=
  match ev with
  | RdRestart t h => rd_enqueue st t h
  | RdBuildSettled =>
      if isBuilding st then
        triggerNext {| rd_queue := tl (rd_queue st); isBuilding := false;
                       rd_isActive := rd_isActive st; rd_calls := rd_calls st |}
      else st
  | RdStop =>
      {| rd_queue := rd_queue st; isBuilding := isBuilding st; rd_isActive := false;
         rd_calls := rd_calls st |}
  end.

Definition rd_run (st : RdWatchState) (evs : list RdEvent) : RdWatchState :=
  fold_left rd_step evs st.

End RolldownWatch.

(* ================================================================== *)
(** ** Concrete workspaces used by the witnesses and counterexamples *)

(** Two packages discovered in the order [b], [a]; [a] depends on [b]. *)
Definition ws_ba : Graph :=
  {| g_size := 2;
     downstreamDependencies := fun p => match p with 1 => [0] | _ => [] end;
     pkg_name := fun p => match p with 0 => "b" | _ => "a" end |}.

(** [A -> B -> A] *)
Definition ws_cycle2 : Graph :=
  {| g_size := 2;
     downstreamDependencies := fun p => match p with 0 => [1] | _ => [0] end;
     pkg_name := fun p => match p with 0 => "A" | _ => "B" end |}.

(** [A -> B -> C -> A] *)
Definition ws_cycle3 : Graph :=
  {| g_size := 3;
     downstreamDependencies := fun p => match p with 0 => [1] | 1 => [2] | _ => [0] end;
     pkg_name := fun p => match p with 0 => "A" | 1 => "B" | _ => "C" end |}.

(** Every package has a single target with one output; all succeed. *)
Definition one_target (p : nat) : list Target :=
  [{| t_pkg := p; t_input_fails := false; t_outputs := [false] |}].

Definition no_signal (n : nat) : bool := false.

(** A target whose [rolldown(...)] call fails, and one that builds. *)
Definition failing_target (p : nat) : Target :=
  {| t_pkg := p; t_input_fails := true; t_outputs := [false] |}.

Definition ok_target (p : nat) : Target :=
  {| t_pkg := p; t_input_fails := false; t_outputs := [false] |}.

(** Watch mode with two entries, [E = 0] (priority 0) and [F = 1]
    (priority 1): [E] changes and starts building; [F] changes while [E]
    builds and is spliced in front of [E]; [E]'s build finishes and
    [queue.shift()] removes [F] instead of [E]; [E] is rebuilt at once;
    [E] changes again during that rebuild. *)
Definition id_priority (n : nat) : nat := n.

Definition trace_shift : list WatchEvent :=
  [Change 0; TimerFires; Change 1; TimerFires; BuildFinished; Change 0; TimerFires].

(** A two-entry queue [F, E] used by the enqueue witness. *)
Definition queue_FE : WatchState :=
  {| queue := [1; 0]; w_isActive := true; dirty := [0; 1]; timers := [];
     inflight := Some 1; aborted := false; inserted := [1; 0] |}.

(** A member [a] whose manifest lists itself as a workspace dependency. *)
Definition self_ref_member : PackageDeclaration :=
  {| decl_name := "a"; dependencies := [("a", "workspace:*")]; devDependencies := [];
     peerDependencies := []; optionalDependencies := [] |}.

(** [a] references [b] both as a runtime and as a development dependency. *)
Definition twice_ref_a : PackageDeclaration :=
  {| decl_name := "a"; dependencies := [("b", "workspace:*")];
     devDependencies := [("b", "workspace:^")];
     peerDependencies := []; optionalDependencies := [] |}.

Definition plain_b : PackageDeclaration :=
  {| decl_name := "b"; dependencies := []; devDependencies := [];
     peerDependencies := []; optionalDependencies := [] |}.

(** The text of a manifest whose [workspaces] array holds a number
    after a string: [{"name": "repo", "workspaces": ["packages/*", 1]}]. *)
Definition dq : string := String (Ascii.ascii_of_nat 34) EmptyString.

Definition mixed_manifest_text : string :=
  "{" +:+ dq +:+ "name" +:+ dq +:+ ": " +:+ dq +:+ "repo" +:+ dq +:+ ", "
  +:+ dq +:+ "workspaces" +:+ dq +:+ ": [" +:+ dq +:+ "packages/*" +:+ dq +:+ ", 1]}".

Definition mixed_manifest : json :=
  JObject [("name", JString "repo");
           ("workspaces", JArray [JString "packages/*"; JNumber 1])].

(** [/repo/package.json] holds [mixed_manifest_text]; no build config. *)
Definition fs_mixed : FileSystem := {|
  readPackageJson := fun d =>
    if String.eqb (dir_str d) "/repo" then RContent mixed_manifest_text else RENOENT;
  globBuildConfig := fun _ => [];
  json_parse := fun text =>
    if String.eqb text mixed_manifest_text then Some mixed_manifest else None
|}.

Definition opts_repo : DiscoverPackageOptions := {| opt_cwd := ["repo"]; opt_jail := None |}.

(** [/repo/pkg] has no manifest; [/repo/package.json] is malformed. *)
Definition fs_malformed : FileSystem := {|
  readPackageJson := fun d =>
    if String.eqb (dir_str d) "/repo" then RContent "{" else RENOENT;
  globBuildConfig := fun _ => [];
  json_parse := fun _ => None
|}.

Definition opts_repo_pkg : DiscoverPackageOptions :=
  {| opt_cwd := ["pkg"; "repo"]; opt_jail := None |}.

(** The package found in [/repo] by [discover fs_mixed]. *)
Definition repo_package : Package :=
  {| directory := "/repo"; declaration := mixed_manifest; buildConfigPath := None |}.

(** A cache that already maps [/repo] to [repo_package]. *)
Definition cache_repo : gmap string (option Package) := <["/repo" := Some repo_package]> ∅.

Definition opts_outside_jail : DiscoverPackageOptions :=
  {| opt_cwd := ["repo"]; opt_jail := Some ["other"] |}.

(** [/repo/pkg/package.json] is an empty file; [/repo/package.json]
    holds [mixed_manifest_text]. *)
Definition fs_empty_pkg : FileSystem := {|
  readPackageJson := fun d =>
    if String.eqb (dir_str d) "/repo/pkg" then RContent ""
    else if String.eqb (dir_str d) "/repo" then RContent mixed_manifest_text else RENOENT;
  globBuildConfig := fun _ => [];
  json_parse := fun text =>
    if String.eqb text mixed_manifest_text then Some mixed_manifest else None
|}.

(** A builder that watches [a] and [b], then is told the next build
    read [b] and [c]. *)
Definition watch_calls_example : list WatchCall :=
  [CallSetWatchFiles ["a"; "b"]; CallStartWatching (OnChange 1);
   CallSetWatchFiles ["b"; "c"]].

(* ================================================================== *)
(** * Proofs *)

(** ** Traversal invariants *)

Lemma mem_In x l : mem x l = true <-> In x l.
Proof.
  unfold mem. rewrite existsb_exists. split.
  - intros (y & Hy & E). apply Nat.eqb_eq in E. subst. exact Hy.
  - intros H. exists x. split; [exact H | apply Nat.eqb_refl].
Qed.

Lemma mem_false x l : mem x l = false -> ~ In x l.
Proof. intros H Hin. apply mem_In in Hin. congruence. Qed.

Lemma set_add_In x y l : In y (set_add x l) <-> y = x \/ In y l.
Proof.
  unfold set_add. destruct (mem x l) eqn:E.
  - apply mem_In in E. split; [tauto|]. intros [->|H]; assumption.
  - simpl. split; intros [H|H]; auto.
Qed.

Lemma set_delete_fresh x l : ~ In x l -> set_delete x l = l.
Proof.
  unfold set_delete. induction l as [|y l IH]; intros Hn; simpl; [reflexivity|].
  destruct (Nat.eqb x y) eqn:E.
  - apply Nat.eqb_eq in E. subst. exfalso. apply Hn. left. reflexivity.
  - simpl. f_equal. apply IH. intros H. apply Hn. right. exact H.
Qed.

Lemma topo_closed g l a b :
  Topo g l -> In a l -> edge g a b -> In b l.
Proof.
  induction 1 as [|p l Hd Ht IH]; simpl; [tauto|].
  intros [<-|Ha] Hab.
  - right. apply Hd. exact Hab.
  - right. apply IH; assumption.
Qed.

Lemma topo_reach g l a b :
  Topo g l -> In a l -> rtc (edge g) a b -> In b l.
Proof.
  intros Ht Ha Hr. induction Hr as [x|x y z Hxy Hyz IH]; [exact Ha|].
  apply IH. eapply topo_closed; eassumption.
Qed.

Lemma topo_acyclic g l x :
  Topo g l -> In x l -> tc (edge g) x x -> False.
Proof.
  intros Ht. revert x. induction Ht as [|p l Hd Ht IH]; intros x Hx Hc; [exact Hx|].
  destruct Hx as [<-|Hx]; [|exact (IH x Hx Hc)].
  assert (Hp : In p l).
  { inversion Hc as [? ? Hpp|? d ? Hpd Hdp]; subst.
    - apply Hd. exact Hpp.
    - eapply topo_reach; [exact Ht | apply Hd; exact Hpd | apply tc_rtc; exact Hdp]. }
  exact (IH p Hp Hc).
Qed.

Lemma topo_set_add g l p :
  Topo g l -> (forall d, In d (downstreamDependencies g p) -> In d l) ->
  Topo g (set_add p l).
Proof.
  intros Ht Hd. unfold set_add. destruct (mem p l); [exact Ht|].
  constructor; assumption.
Qed.

Lemma info_of_snoc g x W q :
  info_of g x W +:+ " -> " +:+ pkg_name g q = info_of g x (W ++ [q]).
Proof. unfold info_of. rewrite fold_left_app. reflexivity. Qed.

Lemma walk_cons g a l :
  walk g l -> (forall b, hd_error l = Some b -> edge g a b) -> walk g (a :: l).
Proof.
  intros Hw He. destruct l as [|b l]; simpl; [exact I|].
  split; [apply He; reflexivity | exact Hw].
Qed.

(** A thrown message names a cycle [x -> rev W -> x] through distinct
    packages. *)
Definition cyc_msg (g : Graph) (m : string) : Prop :=
  exists x W, m = cycle_message (info_of g x W) /\ walk g (x :: rev W ++ [x]) /\
    List.NoDup (x :: W).

(** What a [false] return of [visit pkg] (called while [stk] is the
    [visiting] set) leaves behind: the re-entered package [x] is on the
    stack and [cycleInfo] lists the path from [pkg] back to [x],
    reversed; these packages are distinct, differ from [x] and are no
    longer on the stack. *)
Definition false_inv (g : Graph) (pkg : nat) (stk : list nat) (st' : VisitState) : Prop :=
  exists x W, cycleStart st' = Some x /\ In x stk /\ cycleInfo st' = info_of g x W /\
    walk g (rev W ++ [x]) /\ hd_error (rev W ++ [x]) = Some pkg /\
    List.NoDup (x :: W) /\ (forall w, In w W -> ~ In w stk).

Definition visit_spec (g : Graph) (pkg : nat) (st : VisitState) (o : VisitOutcome) : Prop :=
  match o with
  | VRet true st' =>
      In pkg (visited st') /\ visiting st' = visiting st /\ Topo g (visited st') /\
      (forall q, In q (visited st) -> In q (visited st'))
  | VRet false st' => false_inv g pkg (visiting st) st'
  | VThrow m => cyc_msg g m
  | VNoFuel => False
  end.

Lemma nodup_bounded_length (V : list nat) n :
  List.NoDup V -> (forall q, In q V -> q < n) -> length V <= n.
Proof.
  intros Hnd Hb. rewrite <- (length_seq n 0).
  apply List.NoDup_incl_length; [exact Hnd|].
  intros q Hq. apply in_seq. specialize (Hb q Hq). lia.
Qed.

Section VisitProofs.
Variable g : Graph.
Hypothesis Hwf : graph_wf g.

Definition visit_pre (st : VisitState) (f : nat) : Prop :=
  (forall q, In q (visiting st) -> q < g_size g) /\ List.NoDup (visiting st) /\
  g_size g < length (visiting st) + f /\ Topo g (visited st).

Lemma visit_deps_correct f p prio V :
  p < g_size g -> (forall q, In q V -> q < g_size g) -> List.NoDup V -> ~ In p V ->
  g_size g < length V + S f ->
  (forall d prio' st, d < g_size g -> visit_pre st f ->
     visit_spec g d st (visit g f d prio' st)) ->
  forall deps pre st,
    downstreamDependencies g p = pre ++ deps ->
    (forall d, In d pre -> In d (visited st)) ->
    visiting st = p :: V -> Topo g (visited st) ->
    match visit_deps g (visit g f) p prio deps st with
    | VRet true st' =>
        In p (visited st') /\ visiting st' = V /\ Topo g (visited st') /\
        (forall q, In q (visited st) -> In q (visited st'))
    | VRet false st' => false_inv g p V st'
    | VThrow m => cyc_msg g m
    | VNoFuel => False
    end.
Proof.
  intros Hp HV Hnd HpV Hf IHf deps.
  induction deps as [|d deps IH]; intros pre st Hdown Hpre Hvis Htopo; simpl.
  - repeat split.
    + apply set_add_In. left. reflexivity.
    + simpl. rewrite Hvis. unfold set_delete. simpl. rewrite Nat.eqb_refl. simpl.
      apply set_delete_fresh. exact HpV.
    + simpl. apply topo_set_add; [exact Htopo|].
      intros d Hd. rewrite Hdown, app_nil_r in Hd. apply Hpre. exact Hd.
    + intros q Hq. simpl. apply set_add_In. right. exact Hq.
  - assert (Hdin : In d (downstreamDependencies g p)).
    { rewrite Hdown. apply in_or_app. right. left. reflexivity. }
    assert (Hd : d < g_size g) by (eapply Hwf; eassumption).
    assert (Hpre' : visit_pre st f).
    { unfold visit_pre. rewrite Hvis. repeat split.
      - intros q [<-|Hq]; [exact Hp | apply HV; exact Hq].
      - constructor; assumption.
      - simpl. lia.
      - exact Htopo. }
    pose proof (IHf d (S prio) st Hd Hpre') as Hs.
    destruct (visit g f d (S prio) st) as [[|] st'|m|] eqn:E; simpl in Hs.
    + destruct Hs as (Hin & Hvis' & Htopo' & Hmono).
      assert (Hdown' : downstreamDependencies g p = (pre ++ [d]) ++ deps)
        by (rewrite Hdown, <- app_assoc; reflexivity).
      assert (Hpre2 : forall q, In q (pre ++ [d]) -> In q (visited st')).
      { intros q Hq. apply in_app_or in Hq as [Hq|[<-|[]]]; [apply Hmono, Hpre, Hq | exact Hin]. }
      assert (Hvis2 : visiting st' = p :: V) by (rewrite Hvis'; exact Hvis).
      pose proof (IH (pre ++ [d]) st' Hdown' Hpre2 Hvis2 Htopo') as H.
      destruct (visit_deps g (visit g f) p prio deps st') as [[|] s|m|]; try exact H.
      destruct H as (H1 & H2 & H3 & H4). repeat split; auto.
    + destruct Hs as (x & W & Hcs & Hx & Hinfo & Hwalk & Hhd & Hnd' & Hoff).
      rewrite Hvis in Hx, Hoff.
      assert (HpW : ~ In p W) by (intros HpW; apply (Hoff p HpW); left; reflexivity).
      unfold is_cycle_start. rewrite Hcs.
      destruct (Nat.eqb x p) eqn:Exp.
      * apply Nat.eqb_eq in Exp. subst x.
        exists p, W. split; [rewrite Hinfo; reflexivity|]. split; [|exact Hnd'].
        apply walk_cons; [exact Hwalk|].
        intros b Hb. rewrite Hhd in Hb. injection Hb as <-. exact Hdin.
      * apply Nat.eqb_neq in Exp.
        destruct Hx as [Hx|Hx]; [congruence|].
        exists x, (W ++ [p]). simpl. repeat split.
        -- exact Hcs.
        -- exact Hx.
        -- rewrite Hinfo. apply info_of_snoc.
        -- rewrite rev_app_distr. simpl. apply walk_cons; [exact Hwalk|].
           intros b Hb. rewrite Hhd in Hb. injection Hb as <-. exact Hdin.
        -- rewrite rev_app_distr. reflexivity.
        -- apply List.NoDup_cons_iff in Hnd' as [HxW HndW].
           rewrite (app_comm_cons W [p] x). apply List.NoDup_app.
           ++ apply List.NoDup_cons; [exact HxW | exact HndW].
           ++ apply List.NoDup_cons; [intros []|apply List.NoDup_nil].
           ++ intros a Ha Hap. destruct Hap as [<-|[]].
              destruct Ha as [<-|Ha]; [exact (Exp eq_refl) | exact (HpW Ha)].
        -- intros w Hw Hwv. apply in_app_or in Hw as [Hw|[<-|[]]].
           ++ apply (Hoff w Hw). right. exact Hwv.
           ++ exact (HpV Hwv).
    + exact Hs.
    + exact Hs.
Qed.

Lemma visit_correct f :
  forall p prio st, p < g_size g -> visit_pre st f ->
  visit_spec g p st (visit g f p prio st).
Proof.
  induction f as [|f IHf]; intros p prio st Hp (HV & Hnd & Hf & Htopo).
  - pose proof (nodup_bounded_length _ _ Hnd HV). lia.
  - simpl. destruct (mem p (visited st)) eqn:Ev.
    + simpl. repeat split; auto. apply mem_In. exact Ev.
    + destruct (mem p (visiting st)) eqn:Eg.
      * simpl. exists p, []. simpl. repeat split.
        -- apply mem_In. exact Eg.
        -- apply List.NoDup_cons; [intros []|apply List.NoDup_nil].
        -- intros w [].
      * assert (HpV : ~ In p (visiting st)) by (apply mem_false; exact Eg).
        pose proof (visit_deps_correct f p prio (visiting st) Hp HV Hnd HpV Hf IHf
                      (downstreamDependencies g p) [] (st_enter p st) eq_refl
                      ltac:(intros d []) ltac:(simpl; unfold set_add; rewrite Eg; reflexivity)
                      Htopo) as H.
        destruct (visit_deps g (visit g f) p prio (downstreamDependencies g p) (st_enter p st))
          as [[|] st'|m|]; exact H.
Qed.

End VisitProofs.
Lemma traverse_from_correct g :
  graph_wf g ->
  forall pkgs index st,
    (forall p, In p pkgs -> p < g_size g) -> visiting st = [] -> Topo g (visited st) ->
    match traverse_from g (S (g_size g)) index pkgs st with
    | VRet _ st' =>
        Topo g (visited st') /\ (forall p, In p pkgs -> In p (visited st')) /\
        (forall q, In q (visited st) -> In q (visited st'))
    | VThrow m => cyc_msg g m
    | VNoFuel => False
    end.
Proof.
  intros Hwf pkgs. induction pkgs as [|p ps IH]; intros index st Hb Hvis Htopo;
    cbn [traverse_from].
  - repeat split; auto. intros p [].
  - assert (Hpre : visit_pre g st (S (g_size g))).
    { unfold visit_pre. rewrite Hvis. simpl. repeat split; [intros q []|constructor|lia|exact Htopo]. }
    pose proof (visit_correct g Hwf (S (g_size g)) p index st (Hb p (or_introl eq_refl)) Hpre) as Hs.
    destruct (visit g (S (g_size g)) p index st) as [[|] st'|m|]; simpl in Hs.
    + destruct Hs as (Hin & Hvis' & Htopo' & Hmono).
      assert (Hb' : forall q, In q ps -> q < g_size g) by (intros q Hq; apply Hb; right; exact Hq).
      pose proof (IH (S index) st' Hb' (eq_trans Hvis' Hvis) Htopo') as H.
      destruct (traverse_from g (S (g_size g)) (S index) ps st') as [b st''|m|]; try exact H.
      destruct H as (H1 & H2 & H3). split; [exact H1|split].
      * intros q [<-|Hq]; [apply H3; exact Hin | apply H2; exact Hq].
      * intros q Hq. apply H3, Hmono, Hq.
    + destruct Hs as (x & W & _ & Hx & _). rewrite Hvis in Hx. destruct Hx.
    + exact Hs.
    + destruct Hs.
Qed.

(** If some requested package reaches a dependency cycle, the traversal
    cannot complete: it throws a cycle message. *)
Lemma traverse_cycle g pkgs :
  graph_wf g -> (forall p, In p pkgs -> p < g_size g) ->
  (exists r x, In r pkgs /\ rtc (edge g) r x /\ tc (edge g) x x) ->
  exists m, traverse g pkgs = VThrow m /\ cyc_msg g m.
Proof.
  intros Hwf Hb (r & x & Hr & Hrx & Hxx).
  pose proof (traverse_from_correct g Hwf pkgs 0 init_state Hb eq_refl (Topo_nil g)) as H.
  unfold traverse. destruct (traverse_from g (S (g_size g)) 0 pkgs init_state) as [b st|m|].
  - destruct H as (Htopo & Hall & _). exfalso.
    eapply topo_acyclic; [exact Htopo| |exact Hxx].
    eapply topo_reach; [exact Htopo|apply Hall; exact Hr|exact Hrx].
  - exists m. split; [reflexivity|exact H].
  - destruct H.
Qed.

(* ================================================================== *)
(** ** Claims about Dispatcher.run *)

(** C1 (code_bug evidence): with packages discovered as [b, a] and [a]
    depending on [b], [Dispatcher.run] gives [b] priority 0 and [a]
    priority 1 (the [forEach] index), sorts by descending priority and
    builds [a] before its dependency [b]. *)
Theorem run_builds_dependent_before_dependency :
  edge ws_ba 1 0 /\
  schedule ws_ba [0; 1] = Some [1; 0] /\
  run no_signal ws_ba one_target [0; 1] =
    Some ({| isActive := true; act_tick := 6;
             act_log := [AddPackage 0; AddPackage 1;
                         PackageBuildStarted 1; PackageBuildSucceeded 1;
                         PackageBuildStarted 0; PackageBuildSucceeded 0] |}, None).
Proof.
  split; [left; reflexivity|]. split; vm_compute; reflexivity.
Qed.

(** C2 (amended): whenever a requested package reaches a dependency
    cycle, [Dispatcher.run] throws [Error("dependency cycle [-> X -> ... ->]")]
    before any reporter call or build: [X] is the re-entered package and
    the names after it are the other packages of a cycle
    [X -> rev W -> X] (all distinct, none of them [X]), listed in
    reverse dependency order. *)
Theorem run_cycle_error_lists_cycle_reversed signal g targets pkgs :
  graph_wf g -> (forall p, In p pkgs -> p < g_size g) ->
  (exists r x, In r pkgs /\ rtc (edge g) r x /\ tc (edge g) x x) ->
  exists x W, walk g (x :: rev W ++ [x]) /\ List.NoDup (x :: W) /\
    run signal g targets pkgs = Some (act_init, Some (CycleError (cycle_message (info_of g x W)))).
Proof.
  intros Hwf Hb Hc. destruct (traverse_cycle g pkgs Hwf Hb Hc) as (m & Ht & x & W & -> & Hw & Hnd).
  exists x, W. split; [exact Hw|]. split; [exact Hnd|]. unfold run. rewrite Ht. reflexivity.
Qed.

Lemma run_cycle_error_lists_cycle_reversed_witness :
  exists x W, walk ws_cycle2 (x :: rev W ++ [x]) /\ List.NoDup (x :: W) /\
    run no_signal ws_cycle2 one_target [0; 1] =
      Some (act_init, Some (CycleError (cycle_message (info_of ws_cycle2 x W)))).
Proof.
  apply run_cycle_error_lists_cycle_reversed.
  - intros p d Hp Hd. simpl in *.
    destruct p as [|[|p]]; simpl in Hd; destruct Hd as [<-|[]]; lia.
  - intros p [<-|[<-|[]]]; simpl; lia.
  - exists 0, 0. split; [left; reflexivity|]. split; [apply rtc_refl|].
    apply (tc_l _ 0 1 0); [left; reflexivity|]. apply tc_once. left; reflexivity.
Defined.

(** C2 (counterexample): for the cycle [A -> B -> C -> A] the message is
    ["dependency cycle [-> A -> C -> B ->]"], not the cycle path
    ["A -> B -> C"]; [A -> C] is not an edge. *)
Lemma run_three_cycle_message_reversed :
  run no_signal ws_cycle3 one_target [0] =
    Some (act_init, Some (CycleError "dependency cycle [-> A -> C -> B ->]")) /\
  "dependency cycle [-> A -> C -> B ->]" <> cycle_message "A -> B -> C" /\
  ~ edge ws_cycle3 0 2.
Proof.
  split; [vm_compute; reflexivity|]. split; [vm_compute; discriminate|].
  intros [H|[]]. discriminate.
Qed.

(* ================================================================== *)
(** ** Claims about the one-shot loop and the Activity token *)

Lemma dispatcher_build_app signal pre rest st :
  dispatcher_build signal (pre ++ rest) st =
    match dispatcher_build signal pre st with
    | (s, None) => dispatcher_build signal rest s
    | r => r
    end.
Proof.
  revert st. induction pre as [|t pre IH]; intros st; simpl; [reflexivity|].
  destruct (ensureActive st); [reflexivity|].
  destruct (builder_build signal t st) as [s [e|]]; [reflexivity|]. apply IH.
Qed.

Lemma builder_build_failure_reported signal t st st' e :
  builder_build signal t st = (st', Some e) ->
  In (PackageBuildFailed (t_pkg t)) (act_log st') /\ In (LogError (t_pkg t)) (act_log st').
Proof.
  unfold builder_build. destruct (t_input_fails t).
  - intros H. injection H as <- _. simpl. split; apply in_or_app; simpl; auto.
    left. apply in_or_app. right. left. reflexivity.
  - destruct (write_outputs signal (t_pkg t) (t_outputs t) _) as [s2 [e2|]].
    + intros H. injection H as <- _. simpl. split; apply in_or_app; simpl; auto.
      left. apply in_or_app. right. left. reflexivity.
    + discriminate.
Qed.

(** C3 (counterexample): the first of two targets fails; the failure is
    reported, rethrown, and the second target is never built. *)
Lemma dispatcher_build_stops_after_failure :
  dispatcher_build no_signal [failing_target 0; ok_target 1] act_init =
    ({| isActive := true; act_tick := 1;
        act_log := [PackageBuildStarted 0; PackageBuildFailed 0; LogError 0] |},
     Some (BuildError 0)) /\
  ~ In (PackageBuildStarted 1)
      (act_log (fst (dispatcher_build no_signal [failing_target 0; ok_target 1] act_init))).
Proof.
  split; [vm_compute; reflexivity|]. vm_compute. intros [H|[H|[H|[]]]]; discriminate.
Qed.

(** C3 (amended): when the build of an entry fails, [Builder.build]
    reports it ([packageBuildFailed], [logError]) and rethrows; the loop of
    [Dispatcher.build] stops there, so no later entry is built and the
    error leaves [Dispatcher.build]. *)
Theorem dispatcher_build_failure_reported_and_rethrown signal pre t ts st s1 s2 e :
  dispatcher_build signal pre st = (s1, None) -> isActive s1 = true ->
  builder_build signal t s1 = (s2, Some e) ->
  dispatcher_build signal (pre ++ t :: ts) st = (s2, Some e) /\
  In (PackageBuildFailed (t_pkg t)) (act_log s2) /\ In (LogError (t_pkg t)) (act_log s2).
Proof.
  intros Hpre Ha Hb. split.
  - rewrite dispatcher_build_app, Hpre. simpl. unfold ensureActive. rewrite Ha, Hb. reflexivity.
  - exact (builder_build_failure_reported signal t s1 s2 e Hb).
Qed.

Lemma dispatcher_build_failure_reported_and_rethrown_witness :
  dispatcher_build no_signal ([] ++ [failing_target 0; ok_target 1]) act_init =
    (report (LogError 0) (report (PackageBuildFailed 0)
       (suspend no_signal (report (PackageBuildStarted 0) act_init))), Some (BuildError 0)) /\
  In (PackageBuildFailed 0) (act_log (report (LogError 0) (report (PackageBuildFailed 0)
       (suspend no_signal (report (PackageBuildStarted 0) act_init))))) /\
  In (LogError 0) (act_log (report (LogError 0) (report (PackageBuildFailed 0)
       (suspend no_signal (report (PackageBuildStarted 0) act_init))))).
Proof.
  apply (dispatcher_build_failure_reported_and_rethrown no_signal [] (failing_target 0)
           [ok_target 1] act_init act_init); reflexivity.
Defined.

(** C4: [ensureActive] throws [AbortError] exactly when the activity is
    stopped; [Dispatcher.build] calls it before each entry: a stopped
    activity ends the loop with [AbortError] and an unchanged state (the
    entry's build is not invoked), an active one runs the build. *)
Theorem dispatcher_build_checks_activity signal :
  (forall st, ensureActive st = None <-> isActive st = true) /\
  (forall st, isActive st = false -> ensureActive st = Some AbortError) /\
  (forall st t ts, isActive st = false ->
     dispatcher_build signal (t :: ts) st = (st, Some AbortError)) /\
  (forall st t ts, isActive st = true ->
     dispatcher_build signal (t :: ts) st =
       match builder_build signal t st with
       | (st', None) => dispatcher_build signal ts st'
       | (st', Some e) => (st', Some e)
       end).
Proof.
  unfold ensureActive. split; [|split; [|split]].
  - intros st. destruct (isActive st); split; congruence.
  - intros st ->. reflexivity.
  - intros st t ts H. simpl. unfold ensureActive. rewrite H. reflexivity.
  - intros st t ts H. simpl. unfold ensureActive. rewrite H. reflexivity.
Qed.
(* ================================================================== *)
(** ** Claims about the watch-mode queue *)

Lemma SS_app {A} (R : A -> A -> Prop) (l1 l2 : list A) :
  StronglySorted R l1 -> StronglySorted R l2 ->
  (forall a b, In a l1 -> In b l2 -> R a b) -> StronglySorted R (l1 ++ l2).
Proof.
  induction l1 as [|x l1 IH]; simpl; intros H1 H2 Hx; [exact H2|].
  apply StronglySorted_inv in H1 as [H1 Hf]. constructor.
  - apply IH; [exact H1|exact H2|]. intros a b Ha Hb. apply Hx; [right|]; assumption.
  - apply List.Forall_forall. intros b Hb. apply in_app_or in Hb as [Hb|Hb].
    + rewrite List.Forall_forall in Hf. apply Hf. exact Hb.
    + apply Hx; [left; reflexivity|exact Hb].
Qed.

Lemma SS_app_inv {A} (R : A -> A -> Prop) (l1 l2 : list A) :
  StronglySorted R (l1 ++ l2) ->
  StronglySorted R l1 /\ StronglySorted R l2 /\ (forall a b, In a l1 -> In b l2 -> R a b).
Proof.
  induction l1 as [|x l1 IH]; simpl; intros H.
  - split; [constructor|]. split; [exact H|]. intros a b [].
  - apply StronglySorted_inv in H as [H Hf]. destruct (IH H) as (H1 & H2 & H3).
    rewrite List.Forall_forall in Hf. split; [|split; [exact H2|]].
    + constructor; [exact H1|]. apply List.Forall_forall. intros b Hb. apply Hf, in_or_app. left. exact Hb.
    + intros a b [<-|Ha] Hb; [apply Hf, in_or_app; right; exact Hb | apply H3; assumption].
Qed.

Section WatchProofs.
Variable priority : nat -> nat.

Lemma find_slot_none q e idx : find_slot priority q e idx = None -> In e q.
Proof.
  revert idx. induction q as [|x q IH]; intros idx; simpl; [discriminate|].
  destruct (Nat.eqb x e) eqn:E.
  - intros _. left. apply Nat.eqb_eq. exact E.
  - destruct (priority x <? priority e); [discriminate|].
    intros H. right. exact (IH (S idx) H).
Qed.

Lemma find_slot_some q e idx j :
  find_slot priority q e idx = Some j ->
  exists i, j = idx + i /\
    (forall x, In x (firstn i q) -> x <> e /\ priority e <= priority x) /\
    (forall x rest, skipn i q = x :: rest -> priority x < priority e).
Proof.
  revert idx. induction q as [|x q IH]; intros idx; simpl.
  - intros H. injection H as <-. exists 0. split; [lia|]. split; [intros ? []|].
    intros x rest H. discriminate.
  - destruct (Nat.eqb x e) eqn:E; [discriminate|].
    destruct (priority x <? priority e) eqn:L.
    + intros H. injection H as <-. exists 0. split; [lia|]. split; [intros ? []|].
      intros y rest H. injection H as <- _. apply Nat.ltb_lt. exact L.
    + intros H. destruct (IH (S idx) H) as (i & -> & Hpre & Hpost).
      exists (S i). split; [lia|]. split; [|exact Hpost].
      intros y [<-|Hy]; [|apply Hpre; exact Hy].
      split; [apply Nat.eqb_neq; exact E | apply Nat.ltb_ge; exact L].
Qed.

Lemma buildNext_queue st : queue (buildNext st) = queue st.
Proof. unfold buildNext. destruct (queue st); [reflexivity|]. destruct (aborted st); reflexivity. Qed.

(** C7: in a queue sorted by descending priority, [enqueue] leaves the
    state untouched when the entry is already queued; otherwise it
    splices the entry in just before the first entry of strictly lower
    priority (after every entry of higher or equal priority), and the
    queue stays sorted and, if it was, duplicate-free. *)
Theorem enqueue_idempotent_priority_ordered st e :
  Sorted (prio_desc priority) (queue st) ->
  (In e (queue st) -> enqueue priority st e = st) /\
  (~ In e (queue st) ->
     exists i,
       queue (enqueue priority st e) = firstn i (queue st) ++ e :: skipn i (queue st) /\
       (forall x, In x (firstn i (queue st)) -> priority e <= priority x) /\
       (forall x rest, skipn i (queue st) = x :: rest -> priority x < priority e) /\
       Sorted (prio_desc priority) (queue (enqueue priority st e)) /\
       (List.NoDup (queue st) -> List.NoDup (queue (enqueue priority st e)))).
Proof.
  intros Hs. assert (Hss : StronglySorted (prio_desc priority) (queue st)).
  { apply Sorted_StronglySorted; [intros a b c; unfold prio_desc; lia|exact Hs]. }
  unfold enqueue. destruct (find_slot priority (queue st) e 0) as [j|] eqn:F.
  - destruct (find_slot_some _ _ _ _ F) as (i & -> & Hpre & Hpost). simpl in *.
    assert (Hnot : ~ In e (queue st)).
    { rewrite <- (firstn_skipn i (queue st)). intros Hin. apply in_app_or in Hin as [Hin|Hin].
      - exact (proj1 (Hpre e Hin) eq_refl).
      - rewrite <- (firstn_skipn i (queue st)) in Hss.
        apply SS_app_inv in Hss as (_ & H2 & _).
        destruct (skipn i (queue st)) as [|x rest] eqn:Es; [destruct Hin|].
        specialize (Hpost x rest eq_refl).
        destruct Hin as [<-|Hin]; [lia|].
        apply StronglySorted_inv in H2 as [_ Hf]. rewrite List.Forall_forall in Hf.
        specialize (Hf e Hin). unfold prio_desc in Hf. lia. }
    split; [intros H; contradiction|]. intros _.
    assert (Hq : queue (if w_isActive st then
               {| queue := splice_in i e (queue st); w_isActive := w_isActive st;
                  dirty := dirty st; timers := timers st; inflight := inflight st;
                  aborted := aborted st; inserted := inserted st ++ [e] |}
             else buildNext {| queue := splice_in i e (queue st); w_isActive := w_isActive st;
                  dirty := dirty st; timers := timers st; inflight := inflight st;
                  aborted := aborted st; inserted := inserted st ++ [e] |})
             = splice_in i e (queue st)).
    { destruct (w_isActive st); [reflexivity|]. rewrite buildNext_queue. reflexivity. }
    simpl in Hq |- *. rewrite Hq. unfold splice_in.
    exists i. split; [reflexivity|]. split; [intros x Hx; apply Hpre; exact Hx|].
    split; [exact Hpost|]. split.
    + apply StronglySorted_Sorted.
      rewrite <- (firstn_skipn i (queue st)) in Hss.
      apply SS_app_inv in Hss as (H1 & H2 & H3).
      assert (He : Forall (prio_desc priority e) (skipn i (queue st))).
      { apply List.Forall_forall. intros y Hy. unfold prio_desc.
        destruct (skipn i (queue st)) as [|x rest] eqn:Es; [destruct Hy|].
        specialize (Hpost x rest eq_refl). destruct Hy as [<-|Hy]; [lia|].
        apply StronglySorted_inv in H2 as [_ Hf]. rewrite List.Forall_forall in Hf.
        specialize (Hf y Hy). unfold prio_desc in Hf. lia. }
      apply SS_app; [exact H1| constructor; [exact H2|exact He]|].
      intros a b Ha [<-|Hb]; [unfold prio_desc; apply Hpre; exact Ha | apply H3; assumption].
    + intros Hnd. apply (Permutation_NoDup (Permutation_middle _ _ _)).
      constructor; [rewrite firstn_skipn; exact Hnot|]. rewrite firstn_skipn. exact Hnd.
  - split; [reflexivity|]. intros Hn. exfalso. apply Hn. exact (find_slot_none _ _ _ F).
Qed.

End WatchProofs.

Lemma enqueue_idempotent_priority_ordered_witness :
  (In 0 (queue queue_FE) -> enqueue id_priority queue_FE 0 = queue_FE) /\
  (~ In 0 (queue queue_FE) ->
     exists i,
       queue (enqueue id_priority queue_FE 0) =
         firstn i (queue queue_FE) ++ 0 :: skipn i (queue queue_FE) /\
       (forall x, In x (firstn i (queue queue_FE)) -> id_priority 0 <= id_priority x) /\
       (forall x rest, skipn i (queue queue_FE) = x :: rest -> id_priority x < id_priority 0) /\
       Sorted (prio_desc id_priority) (queue (enqueue id_priority queue_FE 0)) /\
       (List.NoDup (queue queue_FE) -> List.NoDup (queue (enqueue id_priority queue_FE 0)))).
Proof.
  apply (enqueue_idempotent_priority_ordered id_priority queue_FE 0).
  simpl. repeat constructor; unfold prio_desc, id_priority; lia.
Defined.

(** C8 (code_bug evidence): after [E]'s rebuild completes (the
    [BuildFinished] of [trace_shift]), one change of [E] and its debounce
    timer insert nothing: [E] is still in the queue because [shift()]
    removed [F]. [F] is left dirty, out of the queue and never built;
    after the next completion the queue is empty and further changes of
    [F] are ignored. *)
Theorem watch_shift_drops_reinsertion :
  watch_run id_priority watch_init trace_shift =
    {| queue := [0]; w_isActive := true; dirty := [0; 1]; timers := [];
       inflight := Some 0; aborted := false; inserted := [0; 1] |} /\
  watch_run id_priority watch_init (trace_shift ++ [BuildFinished; Change 1; TimerFires]) =
    {| queue := []; w_isActive := false; dirty := [1]; timers := [];
       inflight := None; aborted := false; inserted := [0; 1] |}.
Proof. split; vm_compute; reflexivity. Qed.

(* ================================================================== *)
(** ** Claims about the workspace graph *)

(** C5 (code_bug evidence): a member [a] whose manifest has
    ["a": "workspace:*"] among its dependencies gets the self-edge
    [a -> a], and [Dispatcher.run] on the workspace aborts with a cycle
    error. *)
Theorem discover_self_reference_self_edge :
  ws_downstream DEFAULT_REF_FILTER DEFAULT_FOLLOW_DEPS [self_ref_member] 0 = [0] /\
  ws_upstream DEFAULT_REF_FILTER DEFAULT_FOLLOW_DEPS [self_ref_member] 0 = [0] /\
  run no_signal (ws_graph DEFAULT_REF_FILTER DEFAULT_FOLLOW_DEPS [self_ref_member]) one_target [0] =
    Some (act_init, Some (CycleError "dependency cycle [-> a ->]")).
Proof. split; [|split]; vm_compute; reflexivity. Qed.

(** C6 (counterexample): [a] references [b] as a runtime and as a
    development dependency; [b] appears twice in [a]'s downstream list and
    [a] twice in [b]'s upstream list. *)
Lemma discover_two_kinds_two_edges :
  ws_downstream DEFAULT_REF_FILTER DEFAULT_FOLLOW_DEPS [twice_ref_a; plain_b] 0 = [1; 1] /\
  ws_upstream DEFAULT_REF_FILTER DEFAULT_FOLLOW_DEPS [twice_ref_a; plain_b] 1 = [0; 0].
Proof. split; vm_compute; reflexivity. Qed.

Definition cnt (i j : nat) (l : list (nat * nat)) : nat :=
  length (List.filter (fun e => Nat.eqb (fst e) i && Nat.eqb (snd e) j) l).

Lemma cnt_app i j l1 l2 : cnt i j (l1 ++ l2) = cnt i j l1 + cnt i j l2.
Proof. unfold cnt. rewrite List.filter_app, length_app. reflexivity. Qed.

Lemma cnt_zero i j l :
  (forall x, In x l -> ~ (fst x = i /\ snd x = j)) -> cnt i j l = 0.
Proof.
  unfold cnt. induction l as [|[a b] l IH]; intros H; simpl; [reflexivity|].
  destruct (Nat.eqb a i) eqn:E1; destruct (Nat.eqb b j) eqn:E2; simpl;
    try (apply IH; intros x Hx; apply H; right; exact Hx).
  apply Nat.eqb_eq in E1, E2. exfalso. apply (H (a, b)); [left; reflexivity|simpl; auto].
Qed.

Lemma cnt_flat_map_seq_zero (f : nat -> list (nat * nat)) i j k n s :
  k < s -> (forall k', k' <> k -> cnt i j (f k') = 0) ->
  cnt i j (flat_map f (seq s n)) = 0.
Proof.
  revert s. induction n as [|n IH]; intros s Hk Hz; simpl; [reflexivity|].
  rewrite cnt_app, Hz by lia. rewrite IH; [reflexivity|lia|exact Hz].
Qed.

Lemma cnt_flat_map_seq (f : nat -> list (nat * nat)) i j k n s :
  s <= k < s + n -> (forall k', k' <> k -> cnt i j (f k') = 0) ->
  cnt i j (flat_map f (seq s n)) = cnt i j (f k).
Proof.
  revert s. induction n as [|n IH]; intros s Hk Hz; [lia|].
  simpl. rewrite cnt_app. destruct (Nat.eq_dec s k) as [->|Hne].
  - rewrite (cnt_flat_map_seq_zero f i j k n (S k)); [lia|lia|exact Hz].
  - rewrite Hz by exact Hne. apply IH; [lia|exact Hz].
Qed.

Section WorkspaceProofs.
Variable refFilter : string -> bool.
Variable followDeps : list DependencyKind.
Variable packages : list PackageDeclaration.

Lemma pair_pushes_only up down x :
  In x (pair_pushes refFilter followDeps packages up down) -> x = (up, down).
Proof.
  unfold pair_pushes. rewrite in_flat_map. intros (k & _ & Hx).
  destruct (ref_ok refFilter packages up down k); [destruct Hx as [<-|[]]; reflexivity|destruct Hx].
Qed.

Lemma cnt_pair_pushes up down :
  cnt up down (pair_pushes refFilter followDeps packages up down) =
  length (List.filter (ref_ok refFilter packages up down) followDeps).
Proof.
  unfold pair_pushes, cnt. induction followDeps as [|k ks IH]; simpl; [reflexivity|].
  rewrite List.filter_app, length_app, IH.
  destruct (ref_ok refFilter packages up down k); simpl; [|reflexivity].
  rewrite !Nat.eqb_refl. reflexivity.
Qed.

Lemma cnt_graph_pushes i j :
  i < length packages -> j < length packages ->
  cnt i j (graph_pushes refFilter followDeps packages) =
  length (List.filter (ref_ok refFilter packages i j) followDeps).
Proof.
  intros Hi Hj. unfold graph_pushes.
  rewrite (cnt_flat_map_seq _ i j i); [|lia|].
  - rewrite (cnt_flat_map_seq _ i j j); [apply cnt_pair_pushes|lia|].
    intros k' Hk'. apply cnt_zero. intros x Hx. apply pair_pushes_only in Hx. subst x.
    simpl. intros [_ E]. congruence.
  - intros k' Hk'. apply cnt_zero. intros x Hx. apply in_flat_map in Hx as (d & _ & Hx).
    apply pair_pushes_only in Hx. subst x. simpl. intros [E _]. congruence.
Qed.

End WorkspaceProofs.

Lemma count_map_snd_filter (l : list (nat * nat)) i j :
  count_occ Nat.eq_dec (map snd (List.filter (fun e => Nat.eqb (fst e) i) l)) j = cnt i j l.
Proof.
  unfold cnt. induction l as [|[a b] l IH]; simpl; [reflexivity|].
  destruct (Nat.eqb a i); simpl; [|exact IH].
  destruct (Nat.eq_dec b j) as [->|Hne].
  - rewrite Nat.eqb_refl. simpl. rewrite IH. reflexivity.
  - apply Nat.eqb_neq in Hne. rewrite Hne. exact IH.
Qed.

Lemma count_map_fst_filter (l : list (nat * nat)) i j :
  count_occ Nat.eq_dec (map fst (List.filter (fun e => Nat.eqb (snd e) j) l)) i = cnt i j l.
Proof.
  unfold cnt. induction l as [|[a b] l IH]; simpl; [reflexivity|].
  destruct (Nat.eqb b j) eqn:Eb; simpl; rewrite ?andb_true_r, ?andb_false_r; [|exact IH].
  destruct (Nat.eq_dec a i) as [->|Hne].
  - rewrite Nat.eqb_refl. simpl. rewrite IH. reflexivity.
  - apply Nat.eqb_neq in Hne. rewrite Hne. exact IH.
Qed.

(** C6 (amended): for members [A = i] and [B = j], [B] occurs in
    [A.downstreamDependencies], and [A] in [B.upstreamDependents], once
    per entry of [followDeps] under which [A]'s manifest maps [B]'s name
    to a non-empty reference accepted by [refFilter]. *)
Theorem discover_edge_multiplicity refFilter followDeps packages i j :
  i < length packages -> j < length packages ->
  count_occ Nat.eq_dec (ws_downstream refFilter followDeps packages i) j =
    length (List.filter (ref_ok refFilter packages i j) followDeps) /\
  count_occ Nat.eq_dec (ws_upstream refFilter followDeps packages j) i =
    length (List.filter (ref_ok refFilter packages i j) followDeps).
Proof.
  intros Hi Hj. unfold ws_downstream, ws_upstream.
  rewrite count_map_snd_filter, count_map_fst_filter.
  split; apply cnt_graph_pushes; assumption.
Qed.

Lemma discover_edge_multiplicity_witness :
  count_occ Nat.eq_dec (ws_downstream DEFAULT_REF_FILTER DEFAULT_FOLLOW_DEPS [twice_ref_a; plain_b] 0) 1 =
    length (List.filter (ref_ok DEFAULT_REF_FILTER [twice_ref_a; plain_b] 0 1) DEFAULT_FOLLOW_DEPS) /\
  count_occ Nat.eq_dec (ws_upstream DEFAULT_REF_FILTER DEFAULT_FOLLOW_DEPS [twice_ref_a; plain_b] 1) 0 =
    length (List.filter (ref_ok DEFAULT_REF_FILTER [twice_ref_a; plain_b] 0 1) DEFAULT_FOLLOW_DEPS).
Proof. apply discover_edge_multiplicity; simpl; lia. Defined.

(** ** Package.discover *)

Lemma cache_visited_null (vis : list string) (c : gmap string (option Package)) (k : string) :
  In k vis \/ c !! k = Some None -> cache_visited c vis None !! k = Some None.
Proof.
  revert c. induction vis as [|x vis IH]; intros c H; simpl.
  - destruct H as [[]|H]. exact H.
  - apply IH. destruct (String.eqb_spec x k) as [->|Hne].
    + right. apply lookup_insert_eq.
    + destruct H as [[Hx|Hin]|Hc]; [congruence|left; exact Hin|].
      right. rewrite lookup_insert_ne by exact Hne. exact Hc.
Qed.

Lemma discover_failed_cache fs cache o e cache' :
  discover fs cache o = (Failed e, cache') ->
  cache' = cache_visited cache
             (walk_dirs (discover_walk fs cache (jail_string o) 127 (opt_cwd o) [])) None.
Proof.
  unfold discover. destruct (discover_walk fs cache (jail_string o) 127 (opt_cwd o) [])
    as [c v|cwd [text|] v|e' v]; simpl; intros H; repeat case_match; simplify_eq; reflexivity.
Qed.

Lemma discover_walk_null_cached fs cache jail fuel cwd vis :
  cache !! dir_str cwd = Some None ->
  discover_walk fs cache jail (S fuel) cwd vis = WCached None vis \/
  discover_walk fs cache jail (S fuel) cwd vis = WDone cwd None vis.
Proof.
  intros H. simpl. rewrite H. destruct (negb _); auto.
Qed.

(** C9 (counterexample). [isArrayOf] tests only [value[0]]: the manifest
    [{"name": "repo", "workspaces": ["packages/*", 1]}] passes shape
    validation, and [Package.discover] from [/repo] returns a [Package]
    whose [workspaces] array holds the number [1]; no ManifestShapeError
    is raised for the non-string element. *)
Theorem discover_accepts_non_string_workspace :
  validate_declaration mixed_manifest = None /\
  fst (discover fs_mixed ∅ opts_repo) =
    Found (Some {| directory := "/repo"; declaration := mixed_manifest;
                   buildConfigPath := None |}) /\
  get_prop mixed_manifest "workspaces" = Some (JArray [JString "packages/*"; JNumber 1]).
Proof.
  split; [|split]; vm_compute; reflexivity.
Qed.

(** C10. When [Package.discover] fails with any error, its [finally]
    block has cached [null] for every directory the walk visited: a
    later [Package.discover] on the updated cache, started from any of
    those directories and with any jail, returns [null] without an error
    and leaves the cache unchanged. *)
Theorem discover_error_caches_null fs cache o e cache' :
  discover fs cache o = (Failed e, cache') ->
  forall (d : list string) (jail : option (list string)),
  In (dir_str d) (walk_dirs (discover_walk fs cache (jail_string o) 127 (opt_cwd o) [])) ->
  discover fs cache' {| opt_cwd := d; opt_jail := jail |} = (Found None, cache').
Proof.
  intros Hfail d jail Hin.
  assert (Hc : cache' !! dir_str d = Some None).
  { rewrite (discover_failed_cache _ _ _ _ _ Hfail). apply cache_visited_null. left; exact Hin. }
  unfold discover.
  destruct (discover_walk_null_cached fs cache' (jail_string {| opt_cwd := d; opt_jail := jail |})
              126 (opt_cwd {| opt_cwd := d; opt_jail := jail |}) [] Hc) as [W|W];
    rewrite W; reflexivity.
Qed.

Lemma discover_error_caches_null_witness :
  discover fs_malformed ∅ opts_repo_pkg =
    (Failed ManifestParseError, snd (discover fs_malformed ∅ opts_repo_pkg)) /\
  discover fs_malformed (snd (discover fs_malformed ∅ opts_repo_pkg))
           {| opt_cwd := ["repo"]; opt_jail := None |} =
    (Found None, snd (discover fs_malformed ∅ opts_repo_pkg)).
Proof.
  split.
  - vm_compute. reflexivity.
  - apply (discover_error_caches_null fs_malformed ∅ opts_repo_pkg ManifestParseError).
    + vm_compute. reflexivity.
    + vm_compute. right. left. reflexivity.
Defined.

(** ** More of Package.discover *)

Lemma cache_visited_entry (vis : list string) (c : gmap string (option Package)) k e :
  In k vis \/ c !! k = Some e -> cache_visited c vis e !! k = Some e.
Proof.
  revert c. induction vis as [|x vis IH]; intros c H; simpl.
  - destruct H as [[]|H]. exact H.
  - apply IH. destruct (String.eqb_spec x k) as [->|Hne].
    + right. apply lookup_insert_eq.
    + destruct H as [[Hx|Hin]|Hc]; [congruence|left; exact Hin|].
      right. rewrite lookup_insert_ne by exact Hne. exact Hc.
Qed.

Lemma discover_walk_cached fs cache jail fuel cwd vis c :
  String.prefix jail (dir_str cwd) = true -> cache !! dir_str cwd = Some c ->
  discover_walk fs cache jail (S fuel) cwd vis = WCached c vis.
Proof. intros Hp Hc. simpl. rewrite Hp, Hc. reflexivity. Qed.

Lemma discover_walk_content fs cache jail fuel cwd vis text :
  String.prefix jail (dir_str cwd) = true -> cache !! dir_str cwd = None ->
  readPackageJson fs cwd = RContent text ->
  discover_walk fs cache jail (S fuel) cwd vis = WDone cwd (Some text) (vis ++ [dir_str cwd]).
Proof. intros Hp Hc Hr. simpl. rewrite Hp, Hc, Hr. reflexivity. Qed.

Lemma discover_walk_outside fs cache jail fuel cwd vis :
  String.prefix jail (dir_str cwd) = false ->
  discover_walk fs cache jail (S fuel) cwd vis = WDone cwd None vis.
Proof. intros Hp. simpl. rewrite Hp. reflexivity. Qed.

Lemma discover_walk_dirs fs cache jail fuel cwd vis :
  exists k, k <= fuel /\
    walk_dirs (discover_walk fs cache jail fuel cwd vis) = vis ++ map dir_str (ancestors k cwd) /\
    Forall (fun d => String.prefix jail (dir_str d) = true) (ancestors k cwd).
Proof.
  revert cwd vis. induction fuel as [|fuel IH]; intros cwd vis.
  - exists 0. simpl. rewrite app_nil_r. auto.
  - simpl. destruct (String.prefix jail (dir_str cwd)) eqn:Hp; simpl.
    2: { exists 0. simpl. rewrite app_nil_r. split; [lia|auto]. }
    destruct (cache !! dir_str cwd) as [c|].
    { exists 0. simpl. rewrite app_nil_r. split; [lia|auto]. }
    assert (H1 : 1 <= S fuel /\ vis ++ [dir_str cwd] = vis ++ map dir_str (ancestors 1 cwd) /\
                 Forall (fun d => String.prefix jail (dir_str d) = true) (ancestors 1 cwd)).
    { simpl. split; [lia|]. split; [reflexivity|]. constructor; [exact Hp|constructor]. }
    destruct (readPackageJson fs cwd); try (exists 1; exact H1).
    destruct (String.eqb (dir_str (parent_dir cwd)) (dir_str cwd)); [exists 1; exact H1|].
    destruct (IH (parent_dir cwd) (vis ++ [dir_str cwd])) as (k & Hk & Hw & Hf).
    exists (S k). split; [lia|]. split.
    + rewrite Hw. simpl. rewrite <- app_assoc. reflexivity.
    + constructor; [exact Hp|exact Hf].
Qed.

(** X: the walk of [Package.discover] visits at most 127 directories:
    the start directory and its successive parents, each of them
    starting with the jail path. *)
Theorem discover_walk_bounded fs cache o :
  exists k, k <= 127 /\
    walk_dirs (discover_walk fs cache (jail_string o) 127 (opt_cwd o) []) =
      map dir_str (ancestors k (opt_cwd o)) /\
    Forall (fun d => String.prefix (jail_string o) (dir_str d) = true) (ancestors k (opt_cwd o)).
Proof. exact (discover_walk_dirs fs cache (jail_string o) 127 (opt_cwd o) []). Qed.

(** X: a start directory outside the jail yields [null] at once, and the
    cache is left as it was. *)
Theorem discover_outside_jail fs cache o :
  String.prefix (jail_string o) (dir_str (opt_cwd o)) = false ->
  discover fs cache o = (Found None, cache).
Proof.
  intros Hp. unfold discover.
  rewrite (discover_walk_outside fs cache (jail_string o) 126 (opt_cwd o) [] Hp). reflexivity.
Qed.

Lemma discover_outside_jail_witness :
  String.prefix (jail_string opts_outside_jail) (dir_str (opt_cwd opts_outside_jail)) = false /\
  discover fs_mixed ∅ opts_outside_jail = (Found None, ∅).
Proof.
  split; [vm_compute; reflexivity|]. apply discover_outside_jail. vm_compute. reflexivity.
Defined.

Lemma discover_fresh_cache fs cache o cwd text vis r cache' :
  discover_walk fs cache (jail_string o) 127 (opt_cwd o) [] = WDone cwd (Some text) vis ->
  discover fs cache o = (r, cache') ->
  (exists p, r = Found (Some p) /\ cache' = cache_visited cache vis (Some p)) \/
  (exists e, r = Failed e /\ cache' = cache_visited cache vis None) \/
  (r = Found None /\ cache' = cache_visited cache vis None).
Proof.
  intros W. unfold discover. rewrite W. simpl. unfold find_build_config. intros H.
  repeat case_match; simplify_eq; eauto 6.
Qed.

(** X: an empty [package.json] in the start directory (an empty string
    is falsy for [if (!declJson) return null]) makes [Package.discover]
    return [null] without looking at the parent directories, and caches
    [null] for the start directory. *)
Theorem discover_empty_manifest fs cache o :
  String.prefix (jail_string o) (dir_str (opt_cwd o)) = true ->
  cache !! dir_str (opt_cwd o) = None ->
  readPackageJson fs (opt_cwd o) = RContent "" ->
  discover fs cache o = (Found None, <[dir_str (opt_cwd o) := None]> cache).
Proof.
  intros Hp Hc Hr. unfold discover.
  rewrite (discover_walk_content fs cache _ 126 (opt_cwd o) [] "" Hp Hc Hr).
  reflexivity.
Qed.

Lemma discover_empty_manifest_witness :
  discover fs_empty_pkg ∅ opts_repo_pkg = (Found None, <["/repo/pkg" := None]> ∅).
Proof.
  apply (discover_empty_manifest fs_empty_pkg ∅ opts_repo_pkg).
  - vm_compute. reflexivity.
  - vm_compute. reflexivity.
  - vm_compute. reflexivity.
Defined.

(** X: a package found by reading a manifest (not taken from the cache)
    is cached for every directory the walk visited: a later
    [Package.discover] from any of them, inside its jail, returns that
    same package without touching the file system, and leaves the cache
    unchanged. *)
Theorem discover_success_cached fs cache o cwd text vis p cache' :
  discover_walk fs cache (jail_string o) 127 (opt_cwd o) [] = WDone cwd (Some text) vis ->
  discover fs cache o = (Found (Some p), cache') ->
  forall (d : list string) (jail : option (list string)) (fs' : FileSystem),
  In (dir_str d) vis ->
  String.prefix (jail_string {| opt_cwd := d; opt_jail := jail |}) (dir_str d) = true ->
  discover fs' cache' {| opt_cwd := d; opt_jail := jail |} = (Found (Some p), cache').
Proof.
  intros W Hd d jail fs' Hin Hp.
  destruct (discover_fresh_cache _ _ _ _ _ _ _ _ W Hd) as [(p' & Hr & ->)|[(e & Hr & _)|(Hr & _)]];
    [|discriminate|discriminate].
  injection Hr as <-.
  assert (Hc : cache_visited cache vis (Some p) !! dir_str d = Some (Some p)).
  { apply cache_visited_entry. left. exact Hin. }
  unfold discover.
  rewrite (discover_walk_cached fs' _ _ 126 (opt_cwd {| opt_cwd := d; opt_jail := jail |}) [] _ Hp Hc).
  reflexivity.
Qed.

Lemma discover_success_cached_witness :
  discover fs_mixed ∅ opts_repo = (Found (Some repo_package), snd (discover fs_mixed ∅ opts_repo)) /\
  discover fs_malformed (snd (discover fs_mixed ∅ opts_repo)) {| opt_cwd := ["repo"]; opt_jail := None |} =
    (Found (Some repo_package), snd (discover fs_mixed ∅ opts_repo)).
Proof.
  split; [vm_compute; reflexivity|].
  apply (discover_success_cached fs_mixed ∅ opts_repo ["repo"] mixed_manifest_text ["/repo"]).
  - vm_compute. reflexivity.
  - vm_compute. reflexivity.
  - simpl. left. reflexivity.
  - vm_compute. reflexivity.
Defined.

(** X: when the walk reaches a directory whose cached entry is a
    package, [Package.discover] returns that package, but its [finally]
    block caches [null] (not the package) for the directories it visited
    before the hit; a later [Package.discover] from any of them returns
    [null]. *)
Theorem discover_cache_hit_caches_null fs cache o p vis :
  discover_walk fs cache (jail_string o) 127 (opt_cwd o) [] = WCached (Some p) vis ->
  discover fs cache o = (Found (Some p), cache_visited cache vis None) /\
  forall (d : list string) (jail : option (list string)) (fs' : FileSystem),
  In (dir_str d) vis ->
  discover fs' (cache_visited cache vis None) {| opt_cwd := d; opt_jail := jail |} =
    (Found None, cache_visited cache vis None).
Proof.
  intros W. split; [unfold discover; rewrite W; reflexivity|].
  intros d jail fs' Hin.
  assert (Hc : cache_visited cache vis None !! dir_str d = Some None).
  { apply cache_visited_null. left. exact Hin. }
  unfold discover.
  destruct (discover_walk_null_cached fs' _ (jail_string {| opt_cwd := d; opt_jail := jail |})
              126 (opt_cwd {| opt_cwd := d; opt_jail := jail |}) [] Hc) as [W'|W'];
    rewrite W'; reflexivity.
Qed.

Lemma discover_cache_hit_caches_null_witness :
  discover fs_malformed cache_repo opts_repo_pkg =
    (Found (Some repo_package), cache_visited cache_repo ["/repo/pkg"] None) /\
  discover fs_mixed (cache_visited cache_repo ["/repo/pkg"] None) opts_repo_pkg =
    (Found None, cache_visited cache_repo ["/repo/pkg"] None).
Proof.
  destruct (discover_cache_hit_caches_null fs_malformed cache_repo opts_repo_pkg repo_package
              ["/repo/pkg"]) as [H1 H2].
  - vm_compute. reflexivity.
  - split; [exact H1|]. apply (H2 ["pkg"; "repo"] None fs_mixed). simpl. left. reflexivity.
Defined.

(** ** Deferred *)

Section DeferredProofs.
Context {T R : Type}.

Lemma deferred_calls_fields (d : Deferred T R) cs :
  _pending (deferred_calls d cs) = match cs with [] => _pending d | _ => false end /\
  _reason (deferred_calls d cs) =
    fold_left (fun acc c => match c with CallFail r => Some r | _ => acc end) cs (_reason d) /\
  _value (deferred_calls d cs) =
    fold_left (fun acc c => match c with CallComplete v => Some v | _ => acc end) cs (_value d) /\
  value (deferred_calls d cs) =
    match cs with
    | [] => value d
    | CallComplete v :: _ => resolveFn v (value d)
    | CallFail r :: _ => rejectFn r (value d)
    end.
Proof.
  revert d. induction cs as [|c cs IH]; intros d.
  - simpl. auto.
  - unfold deferred_calls in *. simpl. destruct (IH (deferred_call d c)) as (H1 & H2 & H3 & H4).
    rewrite H1, H2, H3, H4.
    destruct c as [v|r]; destruct cs as [|[v'|r'] cs]; simpl; repeat split;
      destruct (value d); reflexivity.
Qed.

(** X: [getValue] after any sequence of [complete] / [fail] calls on a
    fresh deferred: it throws "still pending" when there was none; it
    throws the reason of the last [fail] whenever there was one, even if
    [complete] was called after it; otherwise it returns the value of the
    last [complete]. *)
Theorem deferred_getValue_calls (cs : list (DeferredCall T R)) :
  getValue (deferred_calls deferred cs) =
    match cs with
    | [] => inl (DeferredError "the Deferred is still pending")
    | _ :: _ =>
        match last_fail cs with
        | Some r => inl (DeferredReason r)
        | None => inr (last_complete cs)
        end
    end.
Proof.
  destruct (deferred_calls_fields deferred cs) as (H1 & H2 & H3 & _).
  unfold getValue. rewrite H1, H2, H3. simpl.
  destruct cs as [|c cs]; reflexivity.
Qed.

(** X: the [value] promise settles with the first [complete] / [fail]
    call and ignores the later ones, and [ensurePending] throws as soon
    as one call was made. So after [complete(v)] then [fail(r)] the
    promise is fulfilled with [v] while [getValue()] throws [r]. *)
Theorem deferred_promise_first_call (cs : list (DeferredCall T R)) :
  value (deferred_calls deferred cs) =
    match cs with
    | [] => PPending
    | CallComplete v :: _ => PFulfilled v
    | CallFail r :: _ => PRejected r
    end /\
  (ensurePending (deferred_calls deferred cs) = None <-> cs = []) /\
  (forall (v : T) (r : R),
     value (deferred_calls deferred [CallComplete v; CallFail r]) = PFulfilled v /\
               getValue (deferred_calls deferred [CallComplete v; CallFail r]) = inl (DeferredReason r)).
Proof.
  destruct (deferred_calls_fields deferred cs) as (H1 & _ & _ & H4).
  split; [rewrite H4; destruct cs as [|[v|r] cs]; reflexivity|].
  split; [|intros v r; split; reflexivity].
  unfold ensurePending. rewrite H1. simpl.
  destruct cs as [|c cs]; [split; reflexivity|]. split; discriminate.
Qed.

End DeferredProofs.

(** ** Builder (rollup variant): file watchers *)

Lemma existsb_key_false (k : string) (m : WatcherMap) :
  ~ In k (map fst m) -> existsb (fun kv => String.eqb (fst kv) k) m = false.
Proof.
  intros H. apply not_true_iff_false. intros He. apply existsb_exists in He as (kv & Hin & Hk).
  apply String.eqb_eq in Hk. apply H. rewrite <- Hk. apply in_map. exact Hin.
Qed.

Lemma map_set_fresh k v (m : WatcherMap) : ~ In k (map fst m) -> map_set k v m = m ++ [(k, v)].
Proof. intros H. unfold map_set. rewrite existsb_key_false by exact H. reflexivity. Qed.

Lemma map_get_in k (m : WatcherMap) :
  In k (map fst m) -> exists id, map_get k m = Some id /\ In (k, id) m.
Proof.
  intros H. unfold map_get.
  destruct (find (fun kv => String.eqb (fst kv) k) m) as [[k' id]|] eqn:F.
  - exists id. split; [reflexivity|]. apply find_some in F as [Hin Hk].
    simpl in Hk. apply String.eqb_eq in Hk. subst. exact Hin.
  - exfalso. apply in_map_iff in H as ([k' id] & Hk & Hin). simpl in Hk. subst.
    pose proof (find_none _ _ F (k, id) Hin) as Hf. simpl in Hf.
    rewrite String.eqb_refl in Hf. discriminate.
Qed.

Lemma keys_unique (m : WatcherMap) p a b :
  List.NoDup (map fst m) -> In (p, a) m -> In (p, b) m -> a = b.
Proof.
  induction m as [|[k v] m IH]; simpl; intros Hnd Ha Hb; [destruct Ha|].
  inversion Hnd as [|? ? Hk Hnd']; subst.
  destruct Ha as [Ha|Ha], Hb as [Hb|Hb]; try congruence.
  - injection Ha as -> ->. exfalso. apply Hk. change p with (fst (p, b)). apply in_map. exact Hb.
  - injection Hb as -> ->. exfalso. apply Hk. change p with (fst (p, a)). apply in_map. exact Ha.
  - exact (IH Hnd' Ha Hb).
Qed.

Lemma map_fst_combine_seq (ps : list string) n : map fst (combine ps (seq n (length ps))) = ps.
Proof.
  revert n. induction ps as [|p ps IH]; intros n; simpl; [reflexivity|]. rewrite IH. reflexivity.
Qed.

Lemma nth_error_combine_seq (ps : list string) n j pi :
  nth_error (combine ps (seq n (length ps))) j = Some pi <->
  exists p, nth_error ps j = Some p /\ pi = (p, n + j).
Proof.
  revert n j. induction ps as [|p ps IH]; intros n j; simpl.
  - destruct j; simpl; split; [discriminate| intros (? & ? & _); discriminate
                              |discriminate| intros (? & ? & _); discriminate].
  - destruct j as [|j]; simpl.
    + split; [intros H; injection H as <-; exists p; split; [reflexivity|f_equal; lia]|].
      intros (p' & Hp & ->). injection Hp as ->. f_equal. f_equal. lia.
    + rewrite IH. split; intros (p' & Hp & ->); exists p'; split; try exact Hp; f_equal; lia.
Qed.

Lemma open_watchers_eq cb (paths : list string) m w :
  List.NoDup paths -> (forall p, In p paths -> ~ In p (map fst m)) ->
  open_watchers cb paths m w =
    (m ++ combine paths (seq (length (created w)) (length paths)),
     {| created := created w ++ map (new_watcher cb) (combine paths (seq (length (created w)) (length paths)));
        closed := closed w |}).
Proof.
  revert m w. induction paths as [|p paths IH]; intros m w Hnd Hfresh; simpl.
  - rewrite !app_nil_r. destruct w. reflexivity.
  - inversion Hnd as [|? ? Hp Hnd']; subst.
    rewrite map_set_fresh by (apply Hfresh; left; reflexivity).
    rewrite IH; [|exact Hnd'|].
    + simpl. rewrite length_app. simpl. rewrite Nat.add_1_r, <- !app_assoc. reflexivity.
    + intros q Hq. rewrite map_app. simpl. intros Hin. apply in_app_or in Hin as [Hin|[<-|[]]].
      * exact (Hfresh q (or_intror Hq) Hin).
      * exact (Hp Hq).
Qed.

Lemma close_watchers_eq (paths : list string) m w :
  List.NoDup paths -> (forall p, In p paths -> In p (map fst m)) -> List.NoDup (map fst m) ->
  exists ids, Forall2 (fun p id => In (p, id) m) paths ids /\
    close_watchers paths m w =
      (List.filter (fun kv => negb (existsb (String.eqb (fst kv)) paths)) m,
       {| created := created w; closed := closed w ++ ids |}).
Proof.
  revert m w. induction paths as [|p paths IH]; intros m w Hnd Hin Hkeys; simpl.
  - exists []. split; [constructor|]. rewrite app_nil_r.
    assert (E : forall l : WatcherMap, List.filter (fun _ => true) l = l)
      by (intros l; induction l as [|? l IHl]; simpl; congruence).
    rewrite E.
    destruct w. reflexivity.
  - inversion Hnd as [|? ? Hp Hnd']; subst.
    destruct (map_get_in p m (Hin p (or_introl eq_refl))) as (id & Hg & Hpid).
    rewrite Hg. unfold map_delete.
    assert (Hex : existsb (fun kv => String.eqb (fst kv) p) m = true).
    { apply existsb_exists. exists (p, id). split; [exact Hpid|apply String.eqb_refl]. }
    rewrite Hex.
    set (m' := List.filter (fun kv => negb (String.eqb (fst kv) p)) m).
    assert (Hsub : forall kv, In kv m' -> In kv m /\ fst kv <> p).
    { intros kv Hkv. unfold m' in Hkv. apply filter_In in Hkv as [H1 H2].
      split; [exact H1|]. apply negb_true_iff, String.eqb_neq in H2. exact H2. }
    destruct (IH m' (watcher_close id w)) as (ids & Hf & Heq).
    + exact Hnd'.
    + intros q Hq. destruct (map_get_in q m (Hin q (or_intror Hq))) as (idq & _ & Hqm).
      change q with (fst (q, idq)). apply in_map. unfold m'. apply filter_In. split; [exact Hqm|].
      simpl. apply negb_true_iff, String.eqb_neq. intros ->. exact (Hp Hq).
    + unfold m'. clear -Hkeys. induction m as [|[k v] m IHm]; simpl; [constructor|].
      inversion Hkeys as [|? ? Hk Hkeys']; subst.
      destruct (negb (String.eqb k p)); simpl; [|exact (IHm Hkeys')].
      constructor; [|exact (IHm Hkeys')]. intros Hin. apply Hk.
      apply in_map_iff in Hin as ([k' v'] & <- & Hin). apply filter_In in Hin as [Hin _].
      change k' with (fst (k', v')). apply in_map. exact Hin.
    + exists (id :: ids). split.
      * constructor; [exact Hpid|]. eapply Forall2_impl; [exact Hf|]. intros q i Hq. apply (Hsub _ Hq).
      * rewrite Heq. simpl. rewrite <- app_assoc. simpl. f_equal.
        unfold m'.
        clear. induction m as [|[k v] m IHm]; simpl; [reflexivity|].
        destruct (String.eqb k p); simpl; [exact IHm|].
        destruct (existsb (String.eqb k) paths); simpl; [exact IHm|]. f_equal. exact IHm.
Qed.

Lemma close_all_ids (ids : list nat) w :
  fold_left (fun w' id => watcher_close id w') ids w = {| created := created w; closed := closed w ++ ids |}.
Proof.
  revert w. induction ids as [|id ids IH]; intros w; simpl.
  - rewrite app_nil_r. destruct w. reflexivity.
  - rewrite IH. simpl. rewrite <- app_assoc. reflexivity.
Qed.

Lemma existsb_eqb_In (x : string) (l : list string) : existsb (String.eqb x) l = true <-> In x l.
Proof.
  rewrite existsb_exists. split.
  - intros (y & Hy & E). apply String.eqb_eq in E. subst. exact Hy.
  - intros H. exists x. split; [exact H|apply String.eqb_refl].
Qed.

Lemma set_difference_In (a b : list string) x :
  In x (set_difference a b) <-> In x a /\ ~ In x b.
Proof.
  unfold set_difference. rewrite filter_In, negb_true_iff, <- not_true_iff_false, existsb_eqb_In.
  tauto.
Qed.

Lemma set_difference_NoDup (a b : list string) : List.NoDup a -> List.NoDup (set_difference a b).
Proof. intros H. apply List.NoDup_filter. exact H. Qed.

Lemma filter_keys_In (d : list string) (m : WatcherMap) kv :
  In kv (List.filter (fun kv => negb (existsb (String.eqb (fst kv)) d)) m) <->
  In kv m /\ ~ In (fst kv) d.
Proof.
  rewrite filter_In, negb_true_iff, <- not_true_iff_false, existsb_eqb_In. tauto.
Qed.

Lemma nodup_keys_filter (f : string * nat -> bool) (m : WatcherMap) :
  List.NoDup (map fst m) -> List.NoDup (map fst (List.filter f m)).
Proof.
  induction m as [|[k v] m IH]; simpl; intros Hnd; [constructor|].
  inversion Hnd as [|? ? Hk Hnd']; subst.
  destruct (f (k, v)); simpl; [|exact (IH Hnd')].
  constructor; [|exact (IH Hnd')]. intros Hin. apply Hk.
  apply in_map_iff in Hin as ([k' v'] & <- & Hin). apply filter_In in Hin as [Hin _].
  change k' with (fst (k', v')). apply in_map. exact Hin.
Qed.

Lemma forall2_in_l {A B} (P : A -> B -> Prop) l1 l2 x :
  Forall2 P l1 l2 -> In x l1 -> exists y, In y l2 /\ P x y.
Proof.
  induction 1 as [|a b l1 l2 Hab _ IH]; intros Hx; [destruct Hx|].
  destruct Hx as [<-|Hx]; [exists b; split; [left; reflexivity|exact Hab]|].
  destruct (IH Hx) as (y & Hy & Hp). exists y. split; [right; exact Hy|exact Hp].
Qed.

Lemma forall2_in_r {A B} (P : A -> B -> Prop) l1 l2 y :
  Forall2 P l1 l2 -> In y l2 -> exists x, In x l1 /\ P x y.
Proof.
  induction 1 as [|a b l1 l2 Hab _ IH]; intros Hy; [destruct Hy|].
  destruct Hy as [<-|Hy]; [exists a; split; [left; reflexivity|exact Hab]|].
  destruct (IH Hy) as (x & Hx & Hp). exists x. split; [right; exact Hx|exact Hp].
Qed.

Lemma nth_error_extend cb (l : list Watcher) (ps : list string) i o :
  nth_error (l ++ map (new_watcher cb) (combine ps (seq (length l) (length ps)))) i = Some o ->
  (i < length l /\ nth_error l i = Some o) \/
  (exists p j, i = length l + j /\ nth_error ps j = Some p /\ o = new_watcher cb (p, i)).
Proof.
  intros H. destruct (Nat.lt_ge_cases i (length l)) as [Hi|Hi].
  - left. split; [exact Hi|]. rewrite nth_error_app1 in H by exact Hi. exact H.
  - right. rewrite nth_error_app2 in H by exact Hi. rewrite nth_error_map in H.
    destruct (nth_error (combine ps (seq (length l) (length ps))) (i - length l)) as [pi|] eqn:E;
      [|discriminate].
    simpl in H. injection H as <-. apply nth_error_combine_seq in E as (p & Hp & ->).
    exists p, (i - length l). split; [lia|]. split; [exact Hp|]. f_equal. f_equal. lia.
Qed.

Lemma nth_error_extend_new cb (l : list Watcher) (ps : list string) j p :
  nth_error ps j = Some p ->
  nth_error (l ++ map (new_watcher cb) (combine ps (seq (length l) (length ps)))) (length l + j) =
    Some (new_watcher cb (p, length l + j)).
Proof.
  intros Hp. rewrite nth_error_app2 by lia. rewrite nth_error_map.
  replace (length l + j - length l) with j by lia.
  assert (E : nth_error (combine ps (seq (length l) (length ps))) j = Some (p, length l + j)).
  { apply nth_error_combine_seq. exists p. split; [exact Hp|reflexivity]. }
  rewrite E. reflexivity.
Qed.

Lemma In_combine_seq (ps : list string) n p id :
  In (p, id) (combine ps (seq n (length ps))) -> exists j, nth_error ps j = Some p /\ id = n + j.
Proof.
  intros H. apply In_nth_error in H as (j & Hj). apply nth_error_combine_seq in Hj as (p' & Hp & E).
  injection E as -> ->. exists j. split; [exact Hp|reflexivity].
Qed.

Lemma nth_error_lt {A} (l : list A) i x : nth_error l i = Some x -> i < length l.
Proof. intros H. apply nth_error_Some. rewrite H. discriminate. Qed.

Lemma watch_inv_start cb b w :
  watch_inv b w -> watch_inv (fst (startWatching cb b w)) (snd (startWatching cb b w)).
Proof.
  intros Hinv. pose proof Hinv as (Hfiles & Hkeys & Hids & Hclosed & Hleak & Hmap & Hmode).
  unfold startWatching. destruct (isWatching b) eqn:Hw; [exact Hinv|].
  rewrite Hmode in *.
  rewrite open_watchers_eq by (exact Hfiles || (intros p _ []) ).
  set (n := length (created w)). set (C := combine (watchFiles b) (seq n (length (watchFiles b)))).
  simpl. unfold watch_inv; simpl.
  split; [exact Hfiles|]. split; [unfold C; rewrite map_fst_combine_seq; exact Hfiles|].
  split.
  { intros i o Hi. apply nth_error_extend in Hi as [[_ Hi]|(p & j & -> & _ & ->)];
      [exact (Hids _ _ Hi)|reflexivity]. }
  split.
  { intros i Hi. rewrite length_app. specialize (Hclosed i Hi). lia. }
  split.
  { intros i o Hi Hnc. apply nth_error_extend in Hi as [[_ Hi]|(p & j & -> & Hp & ->)].
    - destruct (Hleak i o Hi Hnc).
    - simpl. unfold C. apply nth_error_In with j.
      apply nth_error_combine_seq. exists p. split; [exact Hp|reflexivity]. }
  split.
  { intros p id Hin. unfold C in Hin. apply In_combine_seq in Hin as (j & Hp & ->).
    split.
    - intros Hc. specialize (Hclosed _ Hc). unfold n in Hclosed. lia.
    - exists (new_watcher cb (p, n + j)). split; [|split; reflexivity].
      apply nth_error_extend_new. exact Hp. }
  intros p. unfold C. rewrite map_fst_combine_seq. reflexivity.
Qed.

Lemma watch_inv_stop b w :
  watch_inv b w -> watch_inv (fst (stopWatching b w)) (snd (stopWatching b w)).
Proof.
  intros Hinv. pose proof Hinv as (Hfiles & Hkeys & Hids & Hclosed & Hleak & Hmap & Hmode).
  unfold stopWatching. destruct (isWatching b) eqn:Hw; simpl; [|exact Hinv].
  rewrite close_all_ids. unfold watch_inv; simpl.
  split; [constructor|]. split; [constructor|]. split; [exact Hids|]. split.
  { intros i Hi. apply in_app_or in Hi as [Hi|Hi]; [exact (Hclosed i Hi)|].
    apply in_map_iff in Hi as ([p id] & <- & Hin). simpl.
    destruct (Hmap p id Hin) as (_ & o & Ho & _). exact (nth_error_lt _ _ _ Ho). }
  split.
  { intros i o Hi Hnc. exfalso. apply Hnc. apply in_or_app. right.
    assert (Hin : ~ In i (closed w)) by (intros Hc; apply Hnc; apply in_or_app; left; exact Hc).
    specialize (Hleak i o Hi Hin). change i with (snd (watcher_path o, i)). apply in_map. exact Hleak. }
  split; [intros p id []|reflexivity].
Qed.

Lemma watch_inv_set next b w :
  List.NoDup next -> watch_inv b w ->
  watch_inv (fst (setWatchFiles next b w)) (snd (setWatchFiles next b w)).
Proof.
  intros Hnext Hinv. pose proof Hinv as (Hfiles & Hkeys & Hids & Hclosed & Hleak & Hmap & Hmode).
  unfold setWatchFiles. destruct (isWatching b) eqn:Hw; simpl.
  2: { exact (conj Hnext (conj Hkeys (conj Hids (conj Hclosed (conj Hleak (conj Hmap Hmode)))))). }
  set (prev := watchFiles b) in *. set (m := watchers b) in *.
  set (D := set_difference prev next). set (A := set_difference next prev).
  assert (HD : forall p, In p D -> In p (map fst m)).
  { intros p Hp. apply set_difference_In in Hp as [Hp _]. apply Hmode. exact Hp. }
  destruct (close_watchers_eq D m w (set_difference_NoDup _ _ Hfiles) HD Hkeys) as (ids & Hf & Heq1).
  rewrite Heq1.
  set (m1 := List.filter (fun kv => negb (existsb (String.eqb (fst kv)) D)) m).
  set (w1 := {| created := created w; closed := closed w ++ ids |}).
  assert (Hm1 : forall kv, In kv m1 <-> In kv m /\ ~ In (fst kv) D) by (intros kv; apply filter_keys_In).
  assert (HA : forall p, In p A -> ~ In p (map fst m1)).
  { intros p Hp Hk. apply set_difference_In in Hp as [_ Hp]. apply Hp.
    apply in_map_iff in Hk as ([k v] & <- & Hk). apply Hm1 in Hk as [Hk _].
    apply Hmode. change k with (fst (k, v)). apply in_map. exact Hk. }
  rewrite open_watchers_eq by (exact (set_difference_NoDup _ _ Hnext) || exact HA).
  set (n := length (created w1)). set (C := combine A (seq n (length A))).
  assert (Hn : n = length (created w)) by reflexivity.
  assert (Hids_lt : forall id, In id ids -> id < length (created w)).
  { intros id Hid. destruct (forall2_in_r _ _ _ _ Hf Hid) as (p & _ & Hp).
    destruct (Hmap p id Hp) as (_ & o & Ho & _). exact (nth_error_lt _ _ _ Ho). }
  assert (Hids_D : forall p id, In (p, id) m -> In id ids -> In p D).
  { intros p id Hp Hid. destruct (forall2_in_r _ _ _ _ Hf Hid) as (q & Hq & Hqm).
    destruct (Hmap p id Hp) as (_ & o & Ho & Hpo & _). destruct (Hmap q id Hqm) as (_ & o' & Ho' & Hqo & _).
    assert (p = q) as -> by congruence. exact Hq. }
  simpl. unfold watch_inv; simpl.
  split; [exact Hnext|]. split.
  { rewrite map_app. unfold C. rewrite map_fst_combine_seq. apply List.NoDup_app.
    - apply nodup_keys_filter. exact Hkeys.
    - apply set_difference_NoDup. exact Hnext.
    - intros x Hx HxA. exact (HA x HxA Hx). }
  split.
  { intros i o Hi. apply nth_error_extend in Hi as [[_ Hi]|(p & j & -> & _ & ->)];
      [exact (Hids _ _ Hi)|reflexivity]. }
  split.
  { intros i Hi. rewrite length_app. apply in_app_or in Hi as [Hi|Hi];
      [specialize (Hclosed i Hi)|specialize (Hids_lt i Hi)]; simpl in *; lia. }
  split.
  { intros i o Hi Hnc. apply nth_error_extend in Hi as [[Hlt Hi]|(p & j & -> & Hp & ->)].
    - assert (Hnc1 : ~ In i (closed w)) by (intros Hc; apply Hnc, in_or_app; left; exact Hc).
      specialize (Hleak i o Hi Hnc1). apply in_or_app. left. apply Hm1. split; [exact Hleak|].
      simpl. intros HpD. destruct (forall2_in_l _ _ _ _ Hf HpD) as (id' & Hid' & Hm').
      rewrite (keys_unique m _ _ _ Hkeys Hm' Hleak) in Hid'.
      apply Hnc, in_or_app. right. exact Hid'.
    - apply in_or_app. right. simpl. unfold C. apply nth_error_In with j.
      apply nth_error_combine_seq. exists p. split; [exact Hp|reflexivity]. }
  split.
  { intros p id Hin. apply in_app_or in Hin as [Hin|Hin].
    - apply Hm1 in Hin as [Hin HnD]. destruct (Hmap p id Hin) as (Hnc & o & Ho & Hpo & Hco).
      split.
      + intros Hc. apply in_app_or in Hc as [Hc|Hc]; [exact (Hnc Hc)|].
        exact (HnD (Hids_D p id Hin Hc)).
      + exists o. split; [|split; assumption].
        rewrite nth_error_app1 by exact (nth_error_lt _ _ _ Ho). exact Ho.
    - unfold C in Hin. apply In_combine_seq in Hin as (j & Hp & ->). split.
      + intros Hc. apply in_app_or in Hc as [Hc|Hc];
          [specialize (Hclosed _ Hc)|specialize (Hids_lt _ Hc)]; simpl in *; lia.
      + exists (new_watcher (onFileChange b) (p, n + j)). split; [|split; reflexivity].
        apply nth_error_extend_new. exact Hp. }
  intros p. rewrite map_app. unfold C. rewrite map_fst_combine_seq. split.
  - intros Hp. apply in_app_or in Hp as [Hp|Hp].
    + apply in_map_iff in Hp as ([k v] & <- & Hk). apply Hm1 in Hk as [Hk HnD]. simpl in *.
      destruct (in_dec String.string_dec k next) as [Hn'|Hn']; [exact Hn'|].
      exfalso. apply HnD. apply set_difference_In. split; [|exact Hn'].
      apply Hmode. change k with (fst (k, v)). apply in_map. exact Hk.
    + apply set_difference_In in Hp as [Hp _]. exact Hp.
  - intros Hp. apply in_or_app. destruct (in_dec String.string_dec p prev) as [Hpv|Hpv].
    + left. apply Hmode in Hpv. apply in_map_iff in Hpv as ([k v] & Hk & Hin). simpl in Hk. subst k.
      change p with (fst (p, v)). apply in_map. apply Hm1. split; [exact Hin|].
      simpl. intros HpD. apply set_difference_In in HpD as [_ HpD]. exact (HpD Hp).
    + right. apply set_difference_In. split; assumption.
Qed.

Lemma watch_inv_init : watch_inv builder_init fs_init.
Proof.
  unfold watch_inv; simpl. split; [constructor|]. split; [constructor|].
  split; [intros [|?] ? H; discriminate|]. split; [intros ? []|].
  split; [intros [|?] ? H; discriminate|]. split; [intros ? ? []|reflexivity].
Qed.

Lemma watch_calls_inv_from bw cs :
  set_arguments cs -> watch_inv (fst bw) (snd bw) ->
  watch_inv (fst (watch_calls bw cs)) (snd (watch_calls bw cs)).
Proof.
  revert bw. induction cs as [|c cs IH]; intros [b w] Hcs Hinv; [exact Hinv|].
  inversion Hcs as [|? ? Hc Hcs']; subst. unfold watch_calls. simpl.
  apply IH; [exact Hcs'|]. destruct c as [cb| |next]; simpl.
  - apply watch_inv_start. exact Hinv.
  - apply watch_inv_stop. exact Hinv.
  - apply watch_inv_set; assumption.
Qed.

(** X: for any sequence of [startWatching], [stopWatching] and
    [setWatchFiles] calls (the latter with a set) on a fresh builder,
    the open watchers are exactly the ones in [this.watchers]; while
    watching, the map holds one watcher per path of [watchFiles], made
    on that path with [onFileChange] as its callback; while not
    watching, the map is empty. *)
Theorem watch_calls_keep_inv (cs : list WatchCall) :
  set_arguments cs ->
  watch_inv (fst (watch_calls (builder_init, fs_init) cs)) (snd (watch_calls (builder_init, fs_init) cs)).
Proof. intros Hcs. apply watch_calls_inv_from; [exact Hcs|exact watch_inv_init]. Qed.

Ltac nodup_strings :=
  repeat first [ exact I | apply List.NoDup_nil
               | apply List.NoDup_cons;
                 [simpl; let Hin := fresh "Hin" in
                  intro Hin; repeat (destruct Hin as [Hin|Hin]; [discriminate|]); exact Hin|] ].

Ltac set_arguments_tac :=
  unfold set_arguments;
  repeat first [ apply List.Forall_nil | apply List.Forall_cons; [simpl; nodup_strings|] ].

Lemma watch_calls_keep_inv_witness :
  set_arguments watch_calls_example /\
  watch_inv (fst (watch_calls (builder_init, fs_init) watch_calls_example))
            (snd (watch_calls (builder_init, fs_init) watch_calls_example)).
Proof.
  assert (H : set_arguments watch_calls_example).
  { unfold watch_calls_example. set_arguments_tac. }
  split; [exact H|]. apply watch_calls_keep_inv. exact H.
Defined.

(** X: [setWatchFiles(next)] on a watching builder closes exactly the
    watchers of the paths in [watchFiles] but not in [next], opens one
    new watcher (with [onFileChange]) for each path of [next] not in
    [watchFiles] and no other, keeps the watcher of every path in both
    untouched, and leaves one watcher per path of [next]. *)
Theorem setWatchFiles_closes_and_opens_difference (cs : list WatchCall) b w next b' w' :
  set_arguments cs -> watch_calls (builder_init, fs_init) cs = (b, w) ->
  isWatching b = true -> List.NoDup next -> setWatchFiles next b w = (b', w') ->
  (exists ids, Forall2 (fun p id => In (p, id) (watchers b)) (set_difference (watchFiles b) next) ids /\
     closed w' = closed w ++ ids) /\
  (exists news, created w' = created w ++ news /\
     map watcher_path news = set_difference next (watchFiles b) /\
     Forall (fun o => watcher_callback o = onFileChange b) news) /\
  (forall p id, In (p, id) (watchers b) -> In p next -> In (p, id) (watchers b')) /\
  (forall p, In p (map fst (watchers b')) <-> In p next).
Proof.
  intros Hcs Hrun Hw Hnext Hset.
  pose proof (watch_calls_keep_inv cs Hcs) as Hinv. rewrite Hrun in Hinv. simpl in Hinv.
  pose proof (watch_inv_set next b w Hnext Hinv) as Hinv'. rewrite Hset in Hinv'. simpl in Hinv'.
  destruct Hinv as (Hfiles & Hkeys & _ & _ & _ & _ & Hmode). rewrite Hw in Hmode.
  assert (Hw' : isWatching b' = true).
  { unfold setWatchFiles in Hset. rewrite Hw in Hset. simpl in Hset.
    destruct (close_watchers _ _ _) as [m1 w1]. destruct (open_watchers _ _ _ _) as [m2 w2].
    injection Hset as <- _. reflexivity. }
  destruct Hinv' as (_ & _ & _ & _ & _ & _ & Hmode'). rewrite Hw' in Hmode'.
  unfold setWatchFiles in Hset. rewrite Hw in Hset. simpl in Hset.
  set (D := set_difference (watchFiles b) next) in *.
  set (A := set_difference next (watchFiles b)) in *.
  assert (HD : forall p, In p D -> In p (map fst (watchers b))).
  { intros p Hp. apply set_difference_In in Hp as [Hp _]. apply Hmode. exact Hp. }
  destruct (close_watchers_eq D (watchers b) w (set_difference_NoDup _ _ Hfiles) HD Hkeys)
    as (ids & Hf & Heq1).
  rewrite Heq1 in Hset.
  set (m1 := List.filter (fun kv => negb (existsb (String.eqb (fst kv)) D)) (watchers b)) in *.
  assert (HA : forall p, In p A -> ~ In p (map fst m1)).
  { intros p Hp Hk. apply set_difference_In in Hp as [_ Hp]. apply Hp.
    apply in_map_iff in Hk as ([k v] & <- & Hk). apply filter_keys_In in Hk as [Hk _].
    apply Hmode. change k with (fst (k, v)). apply in_map. exact Hk. }
  rewrite open_watchers_eq in Hset by (exact (set_difference_NoDup _ _ Hnext) || exact HA).
  injection Hset as <- <-. simpl.
  split; [exists ids; split; [exact Hf|reflexivity]|].
  split.
  { eexists. split; [reflexivity|]. split.
    - rewrite map_map. simpl. apply map_fst_combine_seq.
    - apply List.Forall_forall. intros o Ho. apply in_map_iff in Ho as (pi & <- & _). reflexivity. }
  split; [|exact Hmode'].
  intros p id Hin Hp. apply in_or_app. left. apply filter_keys_In. split; [exact Hin|].
  simpl. intros HpD. apply set_difference_In in HpD as [_ HpD]. exact (HpD Hp).
Qed.

Lemma setWatchFiles_closes_and_opens_difference_witness :
  let bw := watch_calls (builder_init, fs_init) watch_calls_example in
  let bw' := setWatchFiles ["c"; "d"] (fst bw) (snd bw) in
  (exists ids, Forall2 (fun p id => In (p, id) (watchers (fst bw)))
                 (set_difference (watchFiles (fst bw)) ["c"; "d"]) ids /\
     closed (snd bw') = closed (snd bw) ++ ids) /\
  (exists news, created (snd bw') = created (snd bw) ++ news /\
     map watcher_path news = set_difference ["c"; "d"] (watchFiles (fst bw)) /\
     Forall (fun o => watcher_callback o = onFileChange (fst bw)) news) /\
  (forall p id, In (p, id) (watchers (fst bw)) -> In p ["c"; "d"] -> In (p, id) (watchers (fst bw'))) /\
  (forall p, In p (map fst (watchers (fst bw'))) <-> In p ["c"; "d"]).
Proof.
  intros bw bw'.
  apply (setWatchFiles_closes_and_opens_difference watch_calls_example (fst bw) (snd bw) ["c"; "d"]
           (fst bw') (snd bw')).
  - unfold watch_calls_example. set_arguments_tac.
  - reflexivity.
  - vm_compute. reflexivity.
  - nodup_strings.
  - reflexivity.
Defined.

(** X: after any sequence of calls, [startWatching] on a watching
    builder changes nothing (the callback passed first stays), and
    [stopWatching] leaves the builder not watching with an empty map
    and every watcher it ever opened closed. *)
Theorem startWatching_idempotent_stopWatching_closes_all (cs : list WatchCall) b w :
  set_arguments cs -> watch_calls (builder_init, fs_init) cs = (b, w) ->
  (isWatching b = true -> forall cb, startWatching cb b w = (b, w)) /\
  isWatching (fst (stopWatching b w)) = false /\ watchers (fst (stopWatching b w)) = [] /\
  (forall id o, nth_error (created (snd (stopWatching b w))) id = Some o ->
     In id (closed (snd (stopWatching b w)))).
Proof.
  intros Hcs Hrun.
  pose proof (watch_calls_keep_inv cs Hcs) as Hinv. rewrite Hrun in Hinv. simpl in Hinv.
  split; [intros Hw cb; unfold startWatching; rewrite Hw; reflexivity|].
  pose proof (watch_inv_stop b w Hinv) as (_ & _ & _ & _ & Hleak & _ & Hmode).
  assert (Hnw : isWatching (fst (stopWatching b w)) = false).
  { unfold stopWatching. destruct (isWatching b) eqn:Hw; [reflexivity|exact Hw]. }
  rewrite Hnw in Hmode. split; [exact Hnw|]. split; [exact Hmode|].
  intros id o Ho. destruct (in_dec Nat.eq_dec id (closed (snd (stopWatching b w)))) as [H|H];
    [exact H|]. specialize (Hleak id o Ho H). rewrite Hmode in Hleak. destruct Hleak.
Qed.

Lemma startWatching_idempotent_stopWatching_closes_all_witness :
  let bw := watch_calls (builder_init, fs_init) watch_calls_example in
  (isWatching (fst bw) = true -> forall cb, startWatching cb (fst bw) (snd bw) = (fst bw, snd bw)) /\
  isWatching (fst (stopWatching (fst bw) (snd bw))) = false /\
  watchers (fst (stopWatching (fst bw) (snd bw))) = [] /\
  (forall id o, nth_error (created (snd (stopWatching (fst bw) (snd bw)))) id = Some o ->
     In id (closed (snd (stopWatching (fst bw) (snd bw))))).
Proof.
  intros bw. apply (startWatching_idempotent_stopWatching_closes_all watch_calls_example).
  - unfold watch_calls_example. set_arguments_tac.
  - reflexivity.
Defined.

(* ================================================================== *)
(** ** Watch-mode [Builder.build] and [Dispatcher.build] *)

Lemma suspend_log sg st : act_log (suspend sg st) = act_log st.
Proof. reflexivity. Qed.

Lemma suspend_inactive sg st : isActive st = false -> isActive (suspend sg st) = false.
Proof. intros H. simpl. rewrite H. destruct (sg (act_tick st)); reflexivity. Qed.

Lemma write_outputs_log sg p outs st :
  act_log (fst (write_outputs sg p outs st)) = act_log st.
Proof.
  revert st. induction outs as [|f outs IH]; intros st; simpl; [reflexivity|].
  unfold ensureActive. destruct (isActive st); simpl; [|reflexivity].
  destruct f; simpl; [reflexivity|]. rewrite IH. reflexivity.
Qed.

Lemma str_set_add_spec x s :
  List.NoDup s -> List.NoDup (str_set_add x s) /\ (forall y, In y (str_set_add x s) <-> In y s \/ x = y).
Proof.
  intros Hs. unfold str_set_add. destruct (existsb (String.eqb x) s) eqn:E.
  - apply existsb_exists in E as (z & Hz & Exz). apply String.eqb_eq in Exz as <-.
    split; [exact Hs|]. intros y. split; [auto|]. intros [H| <-]; assumption.
  - split.
    + apply List.NoDup_app; [exact Hs|repeat constructor; intros []|].
      intros y Hy [->|[]]. assert (existsb (String.eqb y) s = true) as E'
        by (apply existsb_exists; exists y; split; [exact Hy|apply String.eqb_refl]).
      congruence.
    + intros y. rewrite in_app_iff. simpl. intuition.
Qed.

Lemma add_all_spec xs s :
  List.NoDup s -> List.NoDup (add_all xs s) /\ (forall y, In y (add_all xs s) <-> In y s \/ In y xs).
Proof.
  unfold add_all. revert s. induction xs as [|x xs IH]; intros s Hs; simpl.
  - split; [exact Hs|]. intros y. tauto.
  - destruct (str_set_add_spec x s Hs) as [Hn Hi].
    destruct (IH _ Hn) as [Hn' Hi']. split; [exact Hn'|]. intros y.
    rewrite Hi', Hi. tauto.
Qed.

Lemma build_targets_spec sg p ts st files o c st' files' o' c' r :
  build_targets sg p ts st files o c = (st', files', o', c', r) ->
  act_log st' = act_log st /\
  o' + c = c' + o + match r with Some (_, true) => 1 | _ => 0 end /\
  (List.NoDup files -> r = None ->
     List.NoDup files' /\
     forall x, In x files' <-> In x files \/ exists t, In t ts /\ In x (rt_watchFiles t)) /\
  (isActive st = false ->
     st' = st /\ o' = o /\ c' = c /\
     r = match ts with [] => None | _ => Some (AbortError, false) end).
Proof.
  revert st files o c. induction ts as [|t ts IH]; intros st files o c H; simpl in H.
  - injection H as <- <- <- <- <-. split; [reflexivity|]. split; [lia|].
    split; [|intros _; auto]. intros Hn _. split; [exact Hn|]. intros x.
    split; [auto|]. intros [Hx|(t & [] & _)]. exact Hx.
  - unfold ensureActive in H. destruct (isActive st) eqn:Ha.
    2:{ injection H as <- <- <- <- <-. split; [reflexivity|]. split; [lia|].
        split; [discriminate|]. intros _. auto. }
    destruct (rt_input_fails t).
    { injection H as <- <- <- <- <-. split; [reflexivity|]. split; [lia|].
      split; [discriminate|]. discriminate. }
    destruct (write_outputs sg p (rt_outputs t) (suspend sg st)) as [st2 [e|]] eqn:Hw.
    { injection H as <- <- <- <- <-.
      pose proof (write_outputs_log sg p (rt_outputs t) (suspend sg st)) as Hl.
      rewrite Hw in Hl. simpl in Hl. split; [exact Hl|]. split; [lia|].
      split; [discriminate|]. discriminate. }
    pose proof (write_outputs_log sg p (rt_outputs t) (suspend sg st)) as Hl.
    rewrite Hw in Hl. simpl in Hl.
    destruct (IH _ _ _ _ H) as (Hlog & Hcnt & Hfiles & _).
    split; [rewrite Hlog; exact Hl|]. split; [lia|]. split; [|discriminate].
    intros Hn Hr. destruct (add_all_spec (rt_watchFiles t) files Hn) as [Hn1 Hi1].
    destruct (Hfiles Hn1 Hr) as [Hn2 Hi2]. split; [exact Hn2|]. intros x.
    rewrite Hi2, Hi1. split.
    + intros [[Hx|Hx]|(t' & Ht' & Hx)]; [auto|right; exists t; simpl; auto|].
      right. exists t'. simpl. auto.
    + intros [Hx|(t' & [<-|Ht'] & Hx)]; [auto|auto|]. right. exists t'. auto.
Qed.

(** X: a watch-mode [Builder.build] never rethrows and never leaks a
    bundle: the reporter receives [packageBuildStarted] then either
    [packageBuildSucceeded], with [setWatchFiles] called on the set of
    all watch files of all targets (without duplicates), or
    [packageBuildFailed] and [logError], with the watch state untouched;
    every bundle opened is closed; and the builder's watcher invariant
    is kept. *)
Theorem rollup_build_outcome sg p tgs b w st st' bw' o c :
  rollup_build sg p tgs b w st = (st', bw', (o, c)) ->
  o = c /\
  ((act_log st' = act_log st ++ [PackageBuildStarted p; PackageBuildSucceeded p] /\
    exists ts files, tgs = Some ts /\ bw' = setWatchFiles files b w /\ List.NoDup files /\
      forall x, In x files <-> exists t, In t ts /\ In x (rt_watchFiles t)) \/
   (act_log st' = act_log st ++ [PackageBuildStarted p; PackageBuildFailed p; LogError p] /\
    bw' = (b, w))) /\
  (watch_inv b w -> watch_inv (fst bw') (snd bw')).
Proof.
  unfold rollup_build. destruct tgs as [ts|].
  2:{ intros H. injection H as <- <- <- <-. split; [reflexivity|].
      split; [right; split; [simpl; rewrite <- !app_assoc; reflexivity|reflexivity]|].
      simpl. auto. }
  destruct (build_targets sg p ts _ [] 0 0) as [[[[st2 files] o2] c2] r] eqn:Hbt.
  destruct (build_targets_spec _ _ _ _ _ _ _ _ _ _ _ _ Hbt) as (Hlog & Hcnt & Hfiles & _).
  simpl in Hlog. destruct r as [[e open]|].
  - intros H. injection H as <- <- <- <-. split; [destruct open; lia|].
    split; [right; split; [simpl; rewrite Hlog, <- !app_assoc; reflexivity|reflexivity]|].
    simpl. auto.
  - intros H. injection H as <- <- <- <-. split; [lia|].
    destruct (Hfiles (List.NoDup_nil _) eq_refl) as [Hn Hi]. split.
    + left. split; [simpl; rewrite Hlog, <- !app_assoc; reflexivity|].
      exists ts, files. split; [reflexivity|]. split; [reflexivity|]. split; [exact Hn|].
      intros x. rewrite Hi. simpl. intuition.
    + intros Hinv. apply watch_inv_set; assumption.
Qed.

(** Two targets of one package whose bundles read [a, b] and [b, c]. *)
Definition two_rtargets : list RTarget :=
  [{| rt_input_fails := false; rt_outputs := [false]; rt_watchFiles := ["a"; "b"] |};
   {| rt_input_fails := false; rt_outputs := [false; false]; rt_watchFiles := ["b"; "c"] |}].

Lemma rollup_build_outcome_witness :
  let r := rollup_build no_signal 0 (Some two_rtargets) builder_init fs_init act_init in
  fst (snd r) = snd (snd r) /\
  ((act_log (fst (fst r)) = act_log act_init ++ [PackageBuildStarted 0; PackageBuildSucceeded 0] /\
    exists ts files, Some two_rtargets = Some ts /\ snd (fst r) = setWatchFiles files builder_init fs_init /\
      List.NoDup files /\ forall x, In x files <-> exists t, In t ts /\ In x (rt_watchFiles t)) \/
   (act_log (fst (fst r)) = act_log act_init ++ [PackageBuildStarted 0; PackageBuildFailed 0; LogError 0] /\
    snd (fst r) = (builder_init, fs_init))) /\
  (watch_inv builder_init fs_init -> watch_inv (fst (snd (fst r))) (snd (snd (fst r)))).
Proof.
  intros r. apply (rollup_build_outcome no_signal 0 (Some two_rtargets) builder_init fs_init act_init).
  vm_compute. reflexivity.
Defined.

(** X: when the signal is already aborted, [Builder.build] opens no
    bundle: if [getTargets] gives no target the build is still reported
    as a success and [setWatchFiles] receives the empty set; otherwise
    ([getTargets] throws, or there is a target) it is reported as a
    failure and the watch state is untouched. *)
Theorem rollup_build_aborted sg p tgs b w st st' bw' cnt :
  isActive st = false ->
  rollup_build sg p tgs b w st = (st', bw', cnt) ->
  cnt = (0, 0) /\
  match tgs with
  | Some [] => act_log st' = act_log st ++ [PackageBuildStarted p; PackageBuildSucceeded p] /\
               bw' = setWatchFiles [] b w
  | _ => act_log st' = act_log st ++ [PackageBuildStarted p; PackageBuildFailed p; LogError p] /\
         bw' = (b, w)
  end.
Proof.
  intros Ha. unfold rollup_build. destruct tgs as [ts|].
  2:{ intros H. injection H as <- <- <-. split; [reflexivity|].
      simpl. rewrite <- !app_assoc. split; reflexivity. }
  assert (Ha1 : isActive (suspend sg (report (PackageBuildStarted p) st)) = false)
    by (apply suspend_inactive; exact Ha).
  destruct (build_targets sg p ts _ [] 0 0) as [[[[st2 files] o2] c2] r] eqn:Hbt.
  destruct (build_targets_spec _ _ _ _ _ _ _ _ _ _ _ _ Hbt) as (_ & _ & _ & Hab).
  destruct (Hab Ha1) as (-> & -> & -> & ->).
  destruct ts as [|t ts]; simpl in Hbt.
  - injection Hbt as <-. intros H. injection H as <- <- <-.
    split; [reflexivity|]. simpl. rewrite <- !app_assoc. split; reflexivity.
  - intros H. injection H as <- <- <-. split; [reflexivity|].
    simpl. rewrite <- !app_assoc. split; reflexivity.
Qed.

Definition aborted_state : ActState := {| isActive := false; act_tick := 0; act_log := [] |}.

Lemma rollup_build_aborted_witness :
  let r := rollup_build no_signal 0 (Some []) builder_init fs_init aborted_state in
  isActive aborted_state = false /\
  snd r = (0, 0) /\
  act_log (fst (fst r)) = act_log aborted_state ++ [PackageBuildStarted 0; PackageBuildSucceeded 0] /\
  snd (fst r) = setWatchFiles [] builder_init fs_init.
Proof.
  intros r. split; [reflexivity|].
  apply (rollup_build_aborted no_signal 0 (Some []) builder_init fs_init aborted_state
           (fst (fst r)) (snd (fst r)) (snd r)); reflexivity.
Defined.

Lemma rollup_build_entries_spec sg es w st st' bs w' :
  rollup_build_entries sg es w st = (st', bs, w') ->
  length bs = length es /\
  exists segs,
    Forall2 (fun e seg => seg = [PackageBuildStarted (re_pkg e); PackageBuildSucceeded (re_pkg e)] \/
                          seg = [PackageBuildStarted (re_pkg e); PackageBuildFailed (re_pkg e); LogError (re_pkg e)])
            es segs /\
    act_log st' = act_log st ++ concat segs.
Proof.
  revert w st st' bs w'. induction es as [|e es IH]; intros w st st' bs w' H; simpl in H.
  - injection H as <- <- <-. split; [reflexivity|]. exists []. split; [constructor|].
    simpl. rewrite app_nil_r. reflexivity.
  - destruct (rollup_build sg (re_pkg e) (re_targets e) (re_builder e) w st)
      as [[st1 [b1 w1]] [o c]] eqn:Hb.
    destruct (rollup_build_entries sg es w1 st1) as [[st2 bs2] w2] eqn:Hr.
    injection H as <- <- <-.
    destruct (IH _ _ _ _ _ Hr) as (Hlen & segs & Hf & Hlog).
    destruct (rollup_build_outcome _ _ _ _ _ _ _ _ _ _ Hb) as (_ & Hout & _).
    split; [simpl; rewrite Hlen; reflexivity|].
    destruct Hout as [(Hl & _)|(Hl & _)].
    + exists ([PackageBuildStarted (re_pkg e); PackageBuildSucceeded (re_pkg e)] :: segs).
      split; [constructor; [left; reflexivity|exact Hf]|].
      rewrite Hlog, Hl. simpl. rewrite <- !app_assoc. reflexivity.
    + exists ([PackageBuildStarted (re_pkg e); PackageBuildFailed (re_pkg e); LogError (re_pkg e)] :: segs).
      split; [constructor; [right; reflexivity|exact Hf]|].
      rewrite Hlog, Hl. simpl. rewrite <- !app_assoc. reflexivity.
Qed.

(** X: the rollup [Dispatcher.build()] throws the [AbortError] before
    building anything when the signal is already aborted; otherwise it
    never throws and builds every entry in order, whatever the earlier
    builds did: the reporter log grows by one started-then-succeeded or
    started-then-failed-then-logged block per entry. *)
Theorem rollup_dispatcher_build_every_entry sg es w st st' bs w' r :
  rollup_dispatcher_build sg es w st = (st', bs, w', r) ->
  (isActive st = false -> st' = st /\ bs = map re_builder es /\ w' = w /\ r = Some AbortError) /\
  (isActive st = true -> r = None /\ length bs = length es /\
     exists segs,
       Forall2 (fun e seg => seg = [PackageBuildStarted (re_pkg e); PackageBuildSucceeded (re_pkg e)] \/
                             seg = [PackageBuildStarted (re_pkg e); PackageBuildFailed (re_pkg e); LogError (re_pkg e)])
               es segs /\
       act_log st' = act_log st ++ concat segs).
Proof.
  unfold rollup_dispatcher_build, ensureActive. destruct (isActive st) eqn:Ha.
  - destruct (rollup_build_entries sg es w st) as [[st1 bs1] w1] eqn:Hr.
    intros H. injection H as <- <- <- <-. split; [discriminate|].
    intros _. split; [reflexivity|]. exact (rollup_build_entries_spec _ _ _ _ _ _ _ Hr).
  - intros H. injection H as <- <- <- <-. split; [auto|discriminate].
Qed.

(** Three entries: the first one's build fails, the others succeed. *)
Definition three_entries : list REntry :=
  [{| re_pkg := 0; re_targets := Some [{| rt_input_fails := true; rt_outputs := []; rt_watchFiles := [] |}];
      re_builder := builder_init |};
   {| re_pkg := 1; re_targets := Some two_rtargets; re_builder := builder_init |};
   {| re_pkg := 2; re_targets := Some []; re_builder := builder_init |}].

Lemma rollup_dispatcher_build_every_entry_witness :
  let r := rollup_dispatcher_build no_signal three_entries fs_init act_init in
  (isActive act_init = false -> fst (fst (fst r)) = act_init /\ snd (fst (fst r)) = map re_builder three_entries /\
     snd (fst r) = fs_init /\ snd r = Some AbortError) /\
  (isActive act_init = true -> snd r = None /\ length (snd (fst (fst r))) = length three_entries /\
     exists segs,
       Forall2 (fun e seg => seg = [PackageBuildStarted (re_pkg e); PackageBuildSucceeded (re_pkg e)] \/
                             seg = [PackageBuildStarted (re_pkg e); PackageBuildFailed (re_pkg e); LogError (re_pkg e)])
               three_entries segs /\
       act_log (fst (fst (fst r))) = act_log act_init ++ concat segs).
Proof.
  intros r. apply (rollup_dispatcher_build_every_entry no_signal three_entries fs_init act_init).
  vm_compute. reflexivity.
Defined.

(* ================================================================== *)
(** ** The watch loop over event traces *)

Section WatchTraceProofs.
Variable priority : nat -> nat.

(** What the watch loop keeps: the queue is sorted by descending
    priority and duplicate-free, [isActive] is set exactly while a
    [builder.build] is awaited, and the entry being built is queued. *)
Definition watch_ok (st : WatchState) : Prop :=
  Sorted (prio_desc priority) (queue st) /\ List.NoDup (queue st) /\
  (w_isActive st = true <-> inflight st <> None) /\
  (forall e, inflight st = Some e -> In e (queue st)).

Lemma splice_sorted_nodup q e j :
  Sorted (prio_desc priority) q -> List.NoDup q -> find_slot priority q e 0 = Some j ->
  Sorted (prio_desc priority) (splice_in j e q) /\ List.NoDup (splice_in j e q) /\
  (forall x, In x q -> In x (splice_in j e q)).
Proof.
  intros Hs Hnd F. assert (Hss : StronglySorted (prio_desc priority) q).
  { apply Sorted_StronglySorted; [intros a b c; unfold prio_desc; lia|exact Hs]. }
  destruct (find_slot_some _ _ _ _ _ F) as (i & -> & Hpre & Hpost). simpl. unfold splice_in.
  assert (Hnot : ~ In e q).
  { rewrite <- (firstn_skipn i q). intros Hin. apply in_app_or in Hin as [Hin|Hin].
    - exact (proj1 (Hpre e Hin) eq_refl).
    - rewrite <- (firstn_skipn i q) in Hss.
      apply SS_app_inv in Hss as (_ & H2 & _).
      destruct (skipn i q) as [|x rest] eqn:Es; [destruct Hin|].
      specialize (Hpost x rest eq_refl).
      destruct Hin as [<-|Hin]; [lia|].
      apply StronglySorted_inv in H2 as [_ Hf]. rewrite List.Forall_forall in Hf.
      specialize (Hf e Hin). unfold prio_desc in Hf. lia. }
  split; [|split].
  - apply StronglySorted_Sorted.
    rewrite <- (firstn_skipn i q) in Hss.
    apply SS_app_inv in Hss as (H1 & H2 & H3).
    assert (He : Forall (prio_desc priority e) (skipn i q)).
    { apply List.Forall_forall. intros y Hy. unfold prio_desc.
      destruct (skipn i q) as [|x rest] eqn:Es; [destruct Hy|].
      specialize (Hpost x rest eq_refl). destruct Hy as [<-|Hy]; [lia|].
      apply StronglySorted_inv in H2 as [_ Hf]. rewrite List.Forall_forall in Hf.
      specialize (Hf y Hy). unfold prio_desc in Hf. lia. }
    apply SS_app; [exact H1| constructor; [exact H2|exact He]|].
    intros a b Ha [<-|Hb]; [unfold prio_desc; apply Hpre; exact Ha | apply H3; assumption].
  - apply (Permutation_NoDup (Permutation_middle _ _ _)).
    constructor; [rewrite firstn_skipn; exact Hnot|]. rewrite firstn_skipn. exact Hnd.
  - intros x Hx. apply (Permutation_in _ (Permutation_middle _ _ _)). right.
    rewrite firstn_skipn. exact Hx.
Qed.

Lemma buildNext_ok st :
  Sorted (prio_desc priority) (queue st) -> List.NoDup (queue st) -> watch_ok (buildNext st).
Proof.
  intros Hs Hnd. unfold buildNext, watch_ok.
  destruct (queue st) as [|x q] eqn:Eq; simpl.
  - split; [exact Hs|]. split; [exact Hnd|]. split; [split; [discriminate|tauto]|].
    discriminate.
  - destruct (aborted st); simpl; (split; [exact Hs|]); (split; [exact Hnd|]).
    + split; [split; [discriminate|tauto]|]. discriminate.
    + split; [split; [discriminate|reflexivity]|]. intros e H. injection H as <-. left. reflexivity.
Qed.

Lemma watch_step_ok st ev : watch_ok st -> watch_ok (watch_step priority st ev).
Proof.
  intros Hok. pose proof Hok as (Hs & Hnd & Hact & Hin).
  destruct ev as [e| | |]; simpl.
  - destruct (aborted st || mem e (dirty st)); [exact Hok|].
    unfold watch_ok; simpl. auto.
  - destruct (timers st) as [|e rest]; [exact Hok|].
    unfold enqueue; simpl. destruct (find_slot priority (queue st) e 0) as [j|] eqn:F.
    + destruct (splice_sorted_nodup _ _ _ Hs Hnd F) as (Hs' & Hnd' & Hincl).
      destruct (w_isActive st) eqn:Ea.
      * unfold watch_ok; simpl. split; [exact Hs'|]. split; [exact Hnd'|].
        split; [exact Hact|]. intros x Hx. apply Hincl, Hin, Hx.
      * apply buildNext_ok; assumption.
    + unfold watch_ok; simpl. auto.
  - destruct (inflight st) as [next|] eqn:Ei; [|exact Hok].
    apply buildNext_ok; simpl.
    + destruct (queue st); [constructor|]. apply Sorted_inv in Hs as [Hs _]. exact Hs.
    + destruct (queue st); [constructor|]. inversion Hnd; assumption.
  - unfold watch_ok; simpl. auto.
Qed.

(** X: along any sequence of file changes, timer firings, build
    completions and abort signals from the initial state, the rebuild
    queue stays sorted by descending priority and duplicate-free,
    [isActive] is set exactly while a build is awaited, and the entry
    being built is in the queue. *)
Theorem watch_run_keeps_queue_ok (evs : list WatchEvent) :
  watch_ok (watch_run priority watch_init evs).
Proof.
  unfold watch_run. assert (H0 : watch_ok watch_init).
  { unfold watch_ok; simpl. split; [constructor|]. split; [constructor|].
    split; [split; [discriminate|tauto]|]. discriminate. }
  revert H0. generalize watch_init. induction evs as [|ev evs IH]; intros st Hok; simpl;
    [exact Hok|]. apply IH, watch_step_ok, Hok.
Qed.

Lemma buildNext_aborted st : aborted st = true -> inflight (buildNext st) = None /\ aborted (buildNext st) = true.
Proof.
  intros Ha. unfold buildNext. destruct (queue st); simpl; [auto|]. rewrite Ha. simpl. auto.
Qed.

Lemma watch_step_aborted st ev :
  aborted st = true ->
  aborted (watch_step priority st ev) = true /\
  (inflight (watch_step priority st ev) = None \/ inflight (watch_step priority st ev) = inflight st).
Proof.
  intros Ha. destruct ev as [e| | |]; simpl.
  - rewrite Ha. simpl. auto.
  - destruct (timers st) as [|e rest]; [auto|].
    unfold enqueue; simpl. destruct (find_slot priority (queue st) e 0) as [j|]; [|simpl; auto].
    destruct (w_isActive st); [simpl; auto|].
    match goal with |- context [buildNext ?R] => destruct (buildNext_aborted R Ha) as [H1 H2] end.
    split; [exact H2|left; exact H1].
  - destruct (inflight st) as [next|] eqn:Ei; [|split; auto].
    match goal with |- context [buildNext ?R] => destruct (buildNext_aborted R Ha) as [H1 H2] end.
    split; [exact H2|left; exact H1].
  - auto.
Qed.

(** X: once the abort signal has fired, no new build is ever started:
    whatever events follow, the signal stays aborted and the awaited
    build is either none or the one that was in flight at that point. *)
Theorem watch_no_build_after_abort st evs :
  aborted st = true ->
  aborted (watch_run priority st evs) = true /\
  (inflight (watch_run priority st evs) = None \/ inflight (watch_run priority st evs) = inflight st).
Proof.
  unfold watch_run. revert st. induction evs as [|ev evs IH]; intros st Ha; simpl; [auto|].
  destruct (watch_step_aborted st ev Ha) as [Ha' Hi].
  destruct (IH _ Ha') as [Ha'' Hi']. split; [exact Ha''|].
  destruct Hi' as [Hi'|Hi']; [left; exact Hi'|]. rewrite Hi'. exact Hi.
Qed.

End WatchTraceProofs.

Lemma watch_no_build_after_abort_witness :
  let st := watch_run id_priority watch_init [Change 0; TimerFires; AbortSignal] in
  aborted st = true /\
  aborted (watch_run id_priority st [Change 1; TimerFires; BuildFinished; TimerFires]) = true /\
  (inflight (watch_run id_priority st [Change 1; TimerFires; BuildFinished; TimerFires]) = None \/
   inflight (watch_run id_priority st [Change 1; TimerFires; BuildFinished; TimerFires]) = inflight st).
Proof.
  intros st. assert (Ha : aborted st = true) by (vm_compute; reflexivity).
  split; [exact Ha|].
  exact (watch_no_build_after_abort id_priority st [Change 1; TimerFires; BuildFinished; TimerFires] Ha).
Defined.

(* ================================================================== *)
(** ** [safeQuoteString] *)

Lemma escape_quotes_app a b : escape_quotes (a ++ b) = escape_quotes a ++ escape_quotes b.
Proof. induction a as [|c a IH]; simpl; [reflexivity|]. rewrite IH, app_assoc. reflexivity. Qed.

Lemma escape_quotes_id l : (forall c, In c l -> c <> quote_ch) -> escape_quotes l = l.
Proof.
  induction l as [|c l IH]; intros H; simpl; [reflexivity|].
  destruct (Ascii.eqb c quote_ch) eqn:E.
  - apply Ascii.eqb_eq in E. exfalso. exact (H c (or_introl eq_refl) E).
  - simpl. rewrite IH; [reflexivity|]. intros d Hd. apply H. right. exact Hd.
Qed.

Lemma no_quote_between s a i :
  (forall j, a <= j -> j < i -> nth_error s j <> Some quote_ch) ->
  forall c, In c (firstn (i - a) (skipn a s)) -> c <> quote_ch.
Proof.
  intros H c Hc ->. apply In_nth_error in Hc as (k & Hk).
  rewrite nth_error_firstn in Hk. destruct (k <? i - a) eqn:L; [|discriminate].
  apply Nat.ltb_lt in L. rewrite nth_error_skipn in Hk.
  exact (H (a + k) ltac:(lia) ltac:(lia) Hk).
Qed.

Lemma skipn_split_at (s : list Ascii.ascii) a i c :
  a <= i -> nth_error s i = Some c ->
  skipn a s = firstn (i - a) (skipn a s) ++ c :: skipn (S i) s.
Proof.
  intros Hai Hc. assert (Hc' : nth_error (skipn a s) (i - a) = Some c).
  { rewrite nth_error_skipn. replace (a + (i - a)) with i by lia. exact Hc. }
  rewrite <- (firstn_skipn_middle _ _ Hc') at 1. f_equal. f_equal.
  rewrite skipn_skipn. f_equal. lia.
Qed.

Lemma quote_loop_spec s n index anchor text :
  index + n = length s -> anchor <= index ->
  (forall j, anchor <= j -> j < index -> nth_error s j <> Some quote_ch) ->
  fst (quote_loop s n index anchor text) ++ skipn (snd (quote_loop s n index anchor text)) s =
    text ++ escape_quotes (skipn anchor s).
Proof.
  revert index anchor text. induction n as [|n IH]; intros index anchor text Hlen Hai Hnq; simpl.
  - f_equal. symmetry. apply escape_quotes_id. intros c Hc ->.
    apply In_nth_error in Hc as (k & Hk). rewrite nth_error_skipn in Hk.
    assert (anchor + k < length s) by (apply nth_error_Some; rewrite Hk; discriminate).
    exact (Hnq (anchor + k) ltac:(lia) ltac:(lia) Hk).
  - destruct (nth_error s index) as [c|] eqn:Hc.
    2:{ apply nth_error_None in Hc. lia. }
    destruct (Ascii.eqb c quote_ch) eqn:E.
    + apply Ascii.eqb_eq in E. subst c.
      rewrite IH by (lia || (intros j Hj1 Hj2; lia)).
      rewrite (skipn_split_at s anchor index quote_ch Hai Hc).
      rewrite escape_quotes_app. simpl.
      rewrite (escape_quotes_id (firstn (index - anchor) (skipn anchor s)))
        by exact (no_quote_between s anchor index Hnq).
      unfold slice. rewrite <- !app_assoc. reflexivity.
    + apply IH; [lia|lia|]. intros j Hj1 Hj2.
      destruct (Nat.eq_dec j index) as [->|Hne]; [|apply Hnq; lia].
      rewrite Hc. intros Heq. injection Heq as ->. rewrite Ascii.eqb_refl in E. discriminate.
Qed.

Lemma escape_quotes_head s d r : escape_quotes s = d :: r -> d <> quote_ch.
Proof.
  destruct s as [|c s]; simpl; [discriminate|]. destruct (Ascii.eqb c quote_ch) eqn:E; simpl.
  - intros H. injection H as <- _. vm_compute. discriminate.
  - intros H. injection H as <- _. intros ->. rewrite Ascii.eqb_refl in E. discriminate.
Qed.

Lemma escape_quotes_inj a b : escape_quotes a = escape_quotes b -> a = b.
Proof.
  revert b. induction a as [|c a IH]; intros [|d b]; simpl; auto.
  - destruct (Ascii.eqb d quote_ch); discriminate.
  - destruct (Ascii.eqb c quote_ch); discriminate.
  - destruct (Ascii.eqb c quote_ch) eqn:Ec, (Ascii.eqb d quote_ch) eqn:Ed; simpl; intros H.
    + apply Ascii.eqb_eq in Ec, Ed. subst. injection H as H. f_equal. apply IH, H.
    + injection H as <- H. symmetry in H. apply escape_quotes_head in H. exfalso. apply H. reflexivity.
    + injection H as -> H. apply escape_quotes_head in H. exfalso. apply H. reflexivity.
    + injection H as <- H. f_equal. apply IH, H.
Qed.

(** X: [safeQuoteString(str)] is [str] between double quotes with every
    double quote of [str] preceded by a backslash and every other
    character, backslashes included, copied as it is; so two different
    strings are never printed the same way. *)
Theorem safeQuoteString_escapes_quotes_only (s : list Ascii.ascii) :
  safeQuoteString s = quote_ch :: escape_quotes s ++ [quote_ch] /\
  (forall s', safeQuoteString s' = safeQuoteString s -> s' = s).
Proof.
  assert (Hform : forall t, safeQuoteString t = quote_ch :: escape_quotes t ++ [quote_ch]).
  { intros t. unfold safeQuoteString.
    pose proof (quote_loop_spec t (length t) 0 0 [] eq_refl (le_n 0)
                  ltac:(intros j Hj1 Hj2; lia)) as H.
    destruct (quote_loop t (length t) 0 0 []) as [text anchor]. simpl in H |- *.
    rewrite app_assoc, H. reflexivity. }
  split; [apply Hform|]. intros s' H. rewrite !Hform in H. injection H as H.
  apply app_inj_tail in H as [H _]. apply escape_quotes_inj, H.
Qed.

(* ================================================================== *)
(** ** [safeStringifyStruct] *)

Lemma items_loop_mono (rec : StringifyFn) ni xs text vis x :
  (forall v ind vis x, In x vis -> In x (snd (rec v ind vis))) ->
  In x vis -> In x (snd (items_loop rec ni xs text vis)).
Proof.
  intros Hrec. revert text vis. induction xs as [|y xs IH]; intros text vis Hx; simpl; [exact Hx|].
  pose proof (Hrec y ni vis x Hx) as Hy. destruct (rec y ni vis) as [r vis']. apply IH, Hy.
Qed.

Lemma props_loop_mono (rec : StringifyFn) ni ps text vis x :
  (forall v ind vis x, In x vis -> In x (snd (rec v ind vis))) ->
  In x vis -> In x (snd (props_loop rec ni ps text vis)).
Proof.
  intros Hrec. revert text vis. induction ps as [|[k y] ps IH]; intros text vis Hx; simpl; [exact Hx|].
  pose proof (Hrec (VString k) [] vis x Hx) as Hk. destruct (rec (VString k) [] vis) as [rk vis1].
  pose proof (Hrec y ni vis1 x Hk) as Hy. destruct (rec y ni vis1) as [ry vis2]. apply IH, Hy.
Qed.

Lemma stringify_visited_mono fuel h v ind vis x :
  In x vis -> In x (snd (stringify fuel h v ind vis)).
Proof.
  revert v ind vis x. induction fuel as [|f IH]; intros v ind vis x Hx; [exact Hx|].
  destruct v as [t|str|b|t| | | | |id]; cbn -[lit]; try exact Hx.
  destruct (mem id vis); [exact Hx|].
  assert (Hx' : In x (set_add id vis)) by (apply set_add_In; right; exact Hx).
  destruct (nth_error h id) as [[items|props|name]|]; cbn -[lit]; try exact Hx'.
  - pose proof (items_loop_mono (stringify f h) (ind ++ lit "  ") items [] _ x
                  (fun v ind vis x H => IH v ind vis x H) Hx') as Hl.
    destruct (items_loop (stringify f h) (ind ++ lit "  ") items [] (set_add id vis)). exact Hl.
  - pose proof (props_loop_mono (stringify f h) (ind ++ lit "  ") props [] _ x
                  (fun v ind vis x H => IH v ind vis x H) Hx') as Hl.
    destruct (props_loop (stringify f h) (ind ++ lit "  ") props [] (set_add id vis)). exact Hl.
Qed.

Lemma stringify_ref_visited f h id ind vis :
  In id (snd (stringify (S f) h (VRef id) ind vis)).
Proof.
  cbn -[lit]. destruct (mem id vis) eqn:E; [apply mem_In, E|].
  assert (Hx' : In id (set_add id vis)) by (apply set_add_In; left; reflexivity).
  destruct (nth_error h id) as [[items|props|name]|]; cbn -[lit]; try exact Hx'.
  - pose proof (items_loop_mono (stringify f h) (ind ++ lit "  ") items [] _ id
                  (fun v ind vis x H => stringify_visited_mono f h v ind vis x H) Hx') as Hl.
    destruct (items_loop (stringify f h) (ind ++ lit "  ") items [] (set_add id vis)). exact Hl.
  - pose proof (props_loop_mono (stringify f h) (ind ++ lit "  ") props [] _ id
                  (fun v ind vis x H => stringify_visited_mono f h v ind vis x H) Hx') as Hl.
    destruct (props_loop (stringify f h) (ind ++ lit "  ") props [] (set_add id vis)). exact Hl.
Qed.

(** X: the [visited] set of [safeStringifyStruct] is shared by the whole
    call and never cleared, so an object referenced twice prints as
    [<cycle>] at its second occurrence even when nothing is cyclic: an
    array holding the same object twice prints its first element in full
    and the second as [<cycle>]. *)
Theorem safeStringifyStruct_shared_reference_cycle h arr o :
  nth_error h arr = Some (OArray [VRef o; VRef o]) ->
  exists t, safeStringifyStruct h (VRef arr) =
    Some (lit "[" ++ [nl_ch] ++ lit "  " ++ t ++ lit "," ++
          [nl_ch] ++ lit "  " ++ lit "<cycle>" ++ lit "," ++ [nl_ch] ++ lit "]").
Proof.
  intros Harr. unfold safeStringifyStruct.
  destruct (length h) as [|k] eqn:Hlen.
  { apply length_zero_iff_nil in Hlen. subst h. destruct arr; discriminate. }
  change (stringify (S (S k)) h (VRef arr) [] []) with
    (if mem arr [] then (Some (lit "<cycle>"), [])
     else let visited := set_add arr [] in
          let nextIndent := [] ++ lit "  " in
          match nth_error h arr with
          | Some (OArray items) =>
              let (text, vis) := items_loop (stringify (S k) h) nextIndent items [] visited in
              (Some (match text with
                     | [] => lit "[]"
                     | _ => lit "[" ++ text ++ [nl_ch] ++ [] ++ lit "]"
                     end), vis)
          | Some (OPlain props) =>
              let (text, vis) := props_loop (stringify (S k) h) nextIndent props [] visited in
              (Some (match text with
                     | [] => lit "{}"
                     | _ => lit "{" ++ text ++ [nl_ch] ++ [] ++ lit "}"
                     end), vis)
          | Some (OOther name) =>
              (Some (match name with Some n => n | None => lit "<unknown>" end), visited)
          | None => (None, visited)
          end).
  cbv zeta. rewrite Harr. simpl (mem arr []).
  unfold items_loop.
  pose proof (stringify_ref_visited k h o ([] ++ lit "  ") (set_add arr [])) as Hin.
  destruct (stringify (S k) h (VRef o) ([] ++ lit "  ") (set_add arr [])) as [r1 vis1] eqn:E1.
  simpl in Hin.
  assert (E2 : stringify (S k) h (VRef o) ([] ++ lit "  ") vis1 = (Some (lit "<cycle>"), vis1)).
  { simpl. apply mem_In in Hin. rewrite Hin. reflexivity. }
  rewrite E2. exists (show_result r1). simpl. rewrite <- !app_assoc. reflexivity.
Qed.

(** An object [{ a: 1 }] referenced twice from one array. *)
Definition shared_heap : Heap :=
  [OPlain [(lit "a", VNumber (lit "1"))]; OArray [VRef 0; VRef 0]].

Lemma safeStringifyStruct_shared_reference_cycle_witness :
  exists t, safeStringifyStruct shared_heap (VRef 1) =
    Some (lit "[" ++ [nl_ch] ++ lit "  " ++ t ++ lit "," ++
          [nl_ch] ++ lit "  " ++ lit "<cycle>" ++ lit "," ++ [nl_ch] ++ lit "]").
Proof. apply (safeStringifyStruct_shared_reference_cycle shared_heap 1 0). reflexivity. Defined.

(* ================================================================== *)
(** ** Watch mode of the rolldown variant *)

Section RolldownWatchProofs.
Variable priority : nat -> nat.

(** X: while a target's build is running (it heads the queue), a
    restart of a target of strictly higher priority that is not queued
    is spliced in front of it; when the running build settles,
    [queue.shift()] removes the newly queued entry instead, so its
    handle's [build()] is never called, and the handle of the target
    that just finished is built a second time. *)
Theorem rd_shift_drops_higher_priority_entry st x rest t h :
  isBuilding st = true -> rd_isActive st = true -> rd_queue st = x :: rest ->
  ~ In t (map pt_target (rd_queue st)) -> priority (pt_target x) < priority t ->
  let st' := rd_step priority (rd_step priority st (RdRestart t h)) RdBuildSettled in
  rd_queue st' = x :: rest /\ isBuilding st' = true /\
  rd_calls st' = rd_calls st ++ [pt_handle x].
Proof.
  intros Hb Ha Hq Hnot Hp.
  assert (Hne : Nat.eqb (pt_target x) t = false).
  { apply Nat.eqb_neq. intros E. apply Hnot. rewrite Hq. left. exact E. }
  assert (E1 : rd_step priority st (RdRestart t h) =
                 {| rd_queue := {| pt_target := t; pt_handle := h |} :: x :: rest; isBuilding := true;
                    rd_isActive := rd_isActive st; rd_calls := rd_calls st |}).
  { simpl. unfold rd_enqueue. rewrite Hq. simpl. rewrite Hne.
    apply Nat.ltb_lt in Hp. rewrite Hp. unfold triggerNext. simpl. rewrite Hb. simpl.
    unfold rd_splice_in. simpl. rewrite <- Hb. reflexivity. }
  cbv zeta. rewrite E1. simpl. unfold triggerNext. simpl. rewrite Ha. simpl. auto.
Qed.

Lemma map_splice_in (f : PendingTarget -> nat) i x q :
  map f (rd_splice_in i x q) = splice_in i (f x) (map f q).
Proof. unfold rd_splice_in, splice_in. rewrite map_app, firstn_map, skipn_map. reflexivity. Qed.

Lemma rd_step_sorted st ev :
  Sorted (prio_desc priority) (map pt_target (rd_queue st)) -> List.NoDup (map pt_target (rd_queue st)) ->
  Sorted (prio_desc priority) (map pt_target (rd_queue (rd_step priority st ev))) /\
  List.NoDup (map pt_target (rd_queue (rd_step priority st ev))).
Proof.
  intros Hs Hnd.
  assert (Htrig : forall st', rd_queue (triggerNext st') = rd_queue st').
  { intros st'. unfold triggerNext. destruct (isBuilding st' || negb (rd_isActive st')); [reflexivity|].
    destruct (rd_queue st') eqn:E; simpl; [exact E|reflexivity]. }
  destruct ev as [t h| |]; simpl.
  - unfold rd_enqueue. destruct (find_slot priority (map pt_target (rd_queue st)) t 0) as [j|] eqn:F;
      [|auto]. rewrite Htrig. simpl. rewrite map_splice_in. simpl.
    destruct (splice_sorted_nodup priority _ _ _ Hs Hnd F) as (H1 & H2 & _). auto.
  - destruct (isBuilding st); [|auto]. rewrite Htrig. simpl.
    destruct (rd_queue st) as [|x q]; simpl in *; [auto|].
    apply Sorted_inv in Hs as [Hs _]. inversion Hnd. auto.
  - auto.
Qed.

Lemma rd_run_sorted evs :
  Sorted (prio_desc priority) (map pt_target (rd_queue (rd_run priority rd_init evs))) /\
  List.NoDup (map pt_target (rd_queue (rd_run priority rd_init evs))).
Proof.
  unfold rd_run. assert (H0 : Sorted (prio_desc priority) (map pt_target (rd_queue rd_init)) /\
                               List.NoDup (map pt_target (rd_queue rd_init))) by (split; constructor).
  revert H0. generalize rd_init. induction evs as [|ev evs IH]; intros st [Hs Hnd]; simpl; [auto|].
  apply IH, rd_step_sorted; assumption.
Qed.

(** X: in any state the watch loop reaches, a restart of a target that
    is already queued (for instance the one being built) changes
    nothing: the new handle is dropped and its [build()] is never
    called. *)
Theorem rd_enqueue_queued_target_drops_handle evs t h :
  In t (map pt_target (rd_queue (rd_run priority rd_init evs))) ->
  rd_step priority (rd_run priority rd_init evs) (RdRestart t h) = rd_run priority rd_init evs.
Proof.
  set (st := rd_run priority rd_init evs). intros Hin.
  destruct (rd_run_sorted evs) as [Hs _]. fold st in Hs.
  simpl. unfold rd_enqueue.
  destruct (find_slot priority (map pt_target (rd_queue st)) t 0) as [j|] eqn:F; [|reflexivity].
  exfalso. destruct (find_slot_some priority _ _ _ _ F) as (i & _ & Hpre & Hpost).
  set (q := map pt_target (rd_queue st)) in *.
  assert (Hss : StronglySorted (prio_desc priority) q).
  { apply Sorted_StronglySorted; [intros a b c; unfold prio_desc; lia|exact Hs]. }
  rewrite <- (firstn_skipn i q) in Hin, Hss. apply in_app_or in Hin as [Hin|Hin].
  - exact (proj1 (Hpre t Hin) eq_refl).
  - apply SS_app_inv in Hss as (_ & H2 & _).
    destruct (skipn i q) as [|y ys] eqn:Es; [destruct Hin|].
    specialize (Hpost y ys eq_refl). destruct Hin as [<-|Hin]; [lia|].
    apply StronglySorted_inv in H2 as [_ Hf]. rewrite List.Forall_forall in Hf.
    specialize (Hf t Hin). unfold prio_desc in Hf. lia.
Qed.

(** X: once [main] is stopped, no handle's [build()] is called any
    more, whatever restarts and settlements follow. *)
Theorem rd_no_build_after_stop st evs :
  rd_isActive st = false ->
  rd_isActive (rd_run priority st evs) = false /\ rd_calls (rd_run priority st evs) = rd_calls st.
Proof.
  unfold rd_run. revert st. induction evs as [|ev evs IH]; intros st Ha; simpl; [auto|].
  assert (Hstep : rd_isActive (rd_step priority st ev) = false /\
                  rd_calls (rd_step priority st ev) = rd_calls st).
  { destruct ev as [t h| |]; simpl.
    - unfold rd_enqueue. destruct (find_slot _ _ _ _); [|auto].
      unfold triggerNext. simpl. rewrite Ha, orb_true_r. simpl. auto.
    - destruct (isBuilding st); [|auto]. unfold triggerNext. simpl. rewrite Ha. simpl. auto.
    - auto. }
  destruct Hstep as [Ha' Hc]. destruct (IH _ Ha') as [Ha'' Hc']. split; [exact Ha''|].
  rewrite Hc', Hc. reflexivity.
Qed.

End RolldownWatchProofs.

Lemma rd_shift_drops_higher_priority_entry_witness :
  let st := rd_run id_priority rd_init [RdRestart 0 10] in
  let st' := rd_step id_priority (rd_step id_priority st (RdRestart 1 11)) RdBuildSettled in
  rd_queue st' = [{| pt_target := 0; pt_handle := 10 |}] /\ isBuilding st' = true /\
  rd_calls st' = rd_calls st ++ [10].
Proof.
  intros st. apply (rd_shift_drops_higher_priority_entry id_priority st
                      {| pt_target := 0; pt_handle := 10 |} [] 1 11);
    [reflexivity|reflexivity|reflexivity| |].
  - simpl. intros [H|[]]. discriminate.
  - unfold id_priority. simpl. lia.
Defined.

Lemma rd_enqueue_queued_target_drops_handle_witness :
  In 0 (map pt_target (rd_queue (rd_run id_priority rd_init [RdRestart 0 10]))) /\
  rd_step id_priority (rd_run id_priority rd_init [RdRestart 0 10]) (RdRestart 0 11) =
    rd_run id_priority rd_init [RdRestart 0 10].
Proof.
  assert (H : In 0 (map pt_target (rd_queue (rd_run id_priority rd_init [RdRestart 0 10]))))
    by (simpl; left; reflexivity).
  split; [exact H|]. exact (rd_enqueue_queued_target_drops_handle id_priority [RdRestart 0 10] 0 11 H).
Defined.

Lemma rd_no_build_after_stop_witness :
  let st := rd_run id_priority rd_init [RdRestart 0 10; RdStop] in
  rd_isActive st = false /\
  rd_isActive (rd_run id_priority st [RdRestart 1 11; RdBuildSettled; RdRestart 0 12]) = false /\
  rd_calls (rd_run id_priority st [RdRestart 1 11; RdBuildSettled; RdRestart 0 12]) = rd_calls st.
Proof.
  intros st. assert (Ha : rd_isActive st = false) by reflexivity. split; [exact Ha|].
  exact (rd_no_build_after_stop id_priority st [RdRestart 1 11; RdBuildSettled; RdRestart 0 12] Ha).
Defined.
